(** * Maestral sync core: revision index, event normalizer, conflict detector

    A shallow embedding of the parts of [maestral/sync.py] that the
    specification makes claims about, together with the proofs that settle
    those claims.

    Conventions.
    - Paths are strings, read as the UTF-8 bytes of the Python string: the
      separator is a single byte that occurs in no other character, so that
      [startswith], [rstrip('/')], [count('/')] and [dirname] do to the bytes
      what they do to the characters.
    - Python's [str.lower] knows all of Unicode; the model does not fix it:
      [lower] stands for an arbitrary function on strings, and the theorems
      hold for every such function.  The few facts about [str.lower] that a
      proof rests on are hypotheses of the section that needs them.
      Examples on concrete paths, all of them ASCII, are evaluated with
      [ascii_lower], which is what [str.lower] does there.
    - Python dictionaries are [gmap]s, Python lists and queues are [list]s.
    - Time stamps (Python floats produced by [time.time] and [st_ctime],
      always finite) are rationals; only their order is ever used.
    - A [while] loop that may spin forever is a fuelled [Fixpoint] returning
      [option]; [None] stands for divergence and is shown to be stable under
      more fuel.
    - Calls into the Dropbox client, the file system and the mignore matcher
      are section variables; a call that may raise returns [option] or one
      of the result types of the batches. *)

From Stdlib Require Import QArith Ascii.
From stdpp Require Import gmap strings list fin_maps sorting.

(** ** Path helpers ([str] methods and [os.path]) *)
Module Path.

(** [s.lower()], for whatever [str.lower] does to a string: the
    definitions below take it as given. *)
Class Lower := lower : string → string.

(** [c.lower()] for an ASCII character. *)
Definition lower_char (c : ascii) : ascii :=
  let n := nat_of_ascii c in
  if (65 <=? n)%nat && (n <=? 90)%nat then ascii_of_nat (n + 32) else c.

(** [s.lower()] for a string of ASCII characters. *)
Fixpoint ascii_lower (s : string) : string :=
  match s with
  | EmptyString => EmptyString
  | String c r => String (lower_char c) (ascii_lower r)
  end.

(** The lower-casing that the examples on ASCII paths are evaluated with. *)
#[global] Instance ascii_Lower : Lower := ascii_lower.

Definition is_sep (c : ascii) : bool := bool_decide (c = "/"%char).

(** [s.startswith(pre)] *)
Fixpoint startswith (s pre : string) : bool :=
  match pre, s with
  | EmptyString, _ => true
  | String _ _, EmptyString => false
  | String a pre', String b s' => bool_decide (a = b) && startswith s' pre'
  end.

(** [s.rstrip('/')] *)
Fixpoint rstrip_sep (s : string) : string :=
  match s with
  | EmptyString => EmptyString
  | String c r =>
      let r' := rstrip_sep r in
      if is_sep c && bool_decide (r' = EmptyString) then EmptyString
      else String c r'
  end.

(** [s == '/' * len(s)] *)
Fixpoint all_sep (s : string) : bool :=
  match s with
  | EmptyString => true
  | String c r => is_sep c && all_sep r
  end.

(** [s[:s.rfind('/') + 1]] *)
Fixpoint upto_last_sep (s : string) : string :=
  match s with
  | EmptyString => EmptyString
  | String c r =>
      let h := upto_last_sep r in
      if is_sep c then String c h
      else if bool_decide (h = EmptyString) then EmptyString
      else String c h
  end.

(** [posixpath.dirname]:
    [i = p.rfind('/') + 1; head = p[:i];
     if head and head != '/' * len(head): head = head.rstrip('/')] *)
Definition dirname (p : string) : string :=
  let head := upto_last_sep p in
  if negb (bool_decide (head = EmptyString)) && negb (all_sep head)
  then rstrip_sep head else head.

(** The last character of [s] is a separator. *)
Fixpoint ends_with_sep (s : string) : bool :=
  match s with
  | EmptyString => false
  | String c EmptyString => is_sep c
  | String _ r => ends_with_sep r
  end.

(** An absolute path in the form the Dropbox API uses: one leading
    separator, not followed by another. *)
Definition rooted (p : string) : bool :=
  match p with
  | EmptyString => false
  | String c r => is_sep c && negb (startswith r "/")
  end.

(** [s.count('/')] *)
Fixpoint count_sep (s : string) : nat :=
  match s with
  | EmptyString => 0
  | String c r => (if is_sep c then 1 else 0) + count_sep r
  end.

(** Modelled from the spec: [is_child] of [maestral.utils.path], which is
    not part of the sources at hand.  The spec says that [is_child sub
    parent] is true iff [sub] lies strictly beneath [parent]: [sub],
    trailing separators apart, extends [parent] by a separator and at
    least one more character. *)
Definition is_child (sub parent : string) : bool :=
  let stem := rstrip_sep parent +:+ "/" in
  let sub := rstrip_sep sub in
  startswith sub stem && negb (bool_decide (sub = stem)).

End Path.

(** ** The revision index ([UpDownSync._rev_dict_cache]) *)
Module RevIndex.

Abbreviation rev_dict := (gmap string string).

Section rev_index.
Context {str_lower : Path.Lower}.

(** [get_local_rev]: [self._rev_dict_cache.get(dbx_path.lower(), None)] *)
Definition get_local_rev (d : rev_dict) (dbx_path : string) : option string :=
  d !! Path.lower dbx_path.

(** The loop of [set_local_rev] that marks the parents:
    [while dirname != '/': d[dirname] = 'folder'; dirname = osp.dirname(dirname)] *)
Fixpoint set_parents (fuel : nat) (dirname : string) (d : rev_dict)
  : option rev_dict :=
  match fuel with
  | O => None
  | S n =>
      if decide (dirname = "/") then Some d
      else set_parents n (Path.dirname dirname) (<[dirname := "folder"]> d)
  end.

(** [for path in dict(d): if path.startswith(dbx_path): d.pop(path, None)] *)
Definition pop_prefixed (dbx_path : string) (d : rev_dict) : rev_dict :=
  filter (λ kv, Path.startswith kv.1 dbx_path = false) d.

(** [set_local_rev].  Saving the index to its file changes nothing in
    memory (failures are logged, [raise_exception] is [False]). *)
Definition set_local_rev (d : rev_dict) (dbx_path : string)
    (rev : option string) : option rev_dict :=
  let dbx_path := Path.lower dbx_path in
  if decide (rev = d !! dbx_path) then Some d
  else match rev with
       | None => Some (pop_prefixed dbx_path d)
       | Some r =>
           set_parents (S (String.length dbx_path)) (Path.dirname dbx_path)
             (<[dbx_path := r]> d)
       end.

(** [clear_rev_index] *)
Definition clear_rev_index (d : rev_dict) : rev_dict := ∅.

(** The paths visited by the parent loop, nearest first. *)
Fixpoint parents_from (fuel : nat) (dirname : string) : option (list string) :=
  match fuel with
  | O => None
  | S n =>
      if decide (dirname = "/") then Some []
      else cons dirname <$> parents_from n (Path.dirname dirname)
  end.

(** The strict ancestors of a path, the root excluded. *)
Definition ancestors (p : string) : option (list string) :=
  parents_from (S (String.length p)) (Path.dirname p).

(** A sequence of index operations. *)
Inductive op : Type :=
| SetLocalRev (dbx_path : string) (rev : option string)
| ClearRevIndex.

Definition step (o : op) (d : rev_dict) : option rev_dict :=
  match o with
  | SetLocalRev p rev => set_local_rev d p rev
  | ClearRevIndex => Some (clear_rev_index d)
  end.

Fixpoint run (ops : list op) (d : rev_dict) : option rev_dict :=
  match ops with
  | [] => Some d
  | o :: ops' => match step o d with
                 | Some d' => run ops' d'
                 | None => None
                 end
  end.

(** The invariant of the specification: every strict ancestor of an
    indexed path is indexed as a folder. *)
Definition materialized (d : rev_dict) : Prop :=
  ∀ k v, d !! k = Some v →
    ∃ l, ancestors k = Some l ∧ ∀ a, a ∈ l → d !! a = Some "folder".

(** No indexed path lies strictly beneath [p]. *)
Definition childless (d : rev_dict) (p : string) : bool :=
  forallb (λ k, match ancestors k with
                | Some l => negb (bool_decide (p ∈ l))
                | None => true
                end) (map_to_list d).*1.

(** An operation keeps to the discipline of the callers when it never
    stores a file revision over a path that still has indexed children. *)
Definition respects (o : op) (d : rev_dict) : bool :=
  match o with
  | SetLocalRev p (Some r) =>
      bool_decide (r = "folder") || childless d (Path.lower p)
  | _ => true
  end.

Fixpoint respects_all (ops : list op) (d : rev_dict) : bool :=
  match ops with
  | [] => true
  | o :: ops' =>
      respects o d &&
      match step o d with
      | Some d' => respects_all ops' d'
      | None => true
      end
  end.

(** The run of the parent loop that starts at [x], as a relation: it stops
    at the root and visits [x] otherwise. *)
Inductive chain : string → list string → Prop :=
| chain_root : chain "/" []
| chain_step x l : x ≠ "/" → chain (Path.dirname x) l → chain x (x :: l).

(** What the parent loop writes when it visits the paths of [l] in turn. *)
Definition mark_folders (l : list string) (d : rev_dict) : rev_dict :=
  foldl (λ acc a, <[a := "folder"]> acc) d l.

End rev_index.
End RevIndex.

(** ** Conflict verdicts ([class Conflict(IntEnum)]) *)
Module Conflict.

(** The members of an [IntEnum] are integers; the class body binds four
    names. *)
Definition RemoteNewer : Z := 0.
Definition Conflict : Z := 1.
Definition Identical : Z := 2.
Definition LocalNewerOrIdentical : Z := 2.

(** The names of the class body with their values, in source order. *)
Definition members : list (string * Z) :=
  [("RemoteNewer", RemoteNewer); ("Conflict", Conflict);
   ("Identical", Identical); ("LocalNewerOrIdentical", LocalNewerOrIdentical)].

End Conflict.

(** ** Remote metadata ([dropbox.files.Metadata]) *)
Inductive Metadata : Type :=
| FileMetadata (path_display path_lower rev content_hash : string)
| FolderMetadata (path_display path_lower : string)
| DeletedMetadata (path_display path_lower : string).

Definition path_display (md : Metadata) : string :=
  match md with
  | FileMetadata p _ _ _ | FolderMetadata p _ | DeletedMetadata p _ => p
  end.

Definition path_lower (md : Metadata) : string :=
  match md with
  | FileMetadata _ p _ _ | FolderMetadata _ p | DeletedMetadata _ p => p
  end.

(** What the Dropbox SDK guarantees of an entry: its path is absolute, and
    the revision of a file is not empty (the SDK validates it as at least
    nine hexadecimal digits). *)
Definition wf_metadata (md : Metadata) : Prop :=
  Path.rooted (path_lower md) = true ∧
  match md with
  | FileMetadata _ _ rev _ => rev ≠ ""
  | _ => True
  end.

(** The entry reports a deletion. *)
Definition is_deleted (md : Metadata) : Prop :=
  match md with
  | DeletedMetadata _ _ => True
  | _ => False
  end.

(** ** Time stamps *)

(** Python's [max(a, b)]: [b] only if [b > a]. *)
Definition py_max (a b : Q) : Q := if Qle_bool b a then a else b.

(** ** The conflict detector *)
Module Detector.
Import RevIndex.

Section detector.
Context {str_lower : Path.Lower}.

(** The part of [UpDownSync] that the detector reads and writes. *)
Record state : Type := State {
  rev_dict_cache : gmap string string;
  last_sync_for_path : gmap string Q;
  last_sync : Q;
}.

(** [get_last_sync_for_path] *)
Definition get_last_sync_for_path (s : state) (dbx_path : string) : Q :=
  let dbx_path := Path.lower dbx_path in
  py_max (default 0%Q (last_sync_for_path s !! dbx_path)) (last_sync s).

(** [set_last_sync_for_path] *)
Definition set_last_sync_for_path (s : state) (dbx_path : string) (t : Q)
  : state :=
  let dbx_path := Path.lower dbx_path in
  State (rev_dict_cache s)
    (if Qeq_bool t 0 then delete dbx_path (last_sync_for_path s)
     else <[dbx_path := t]> (last_sync_for_path s))
    (last_sync s).

(** Python truthiness of [remote_rev], a string or [None]. *)
Definition truthy (o : option string) : bool :=
  match o with
  | Some s => negb (bool_decide (s = ""))
  | None => false
  end.

(** The local disk, as seen through [to_local_path], [get_ctime] and
    [get_local_hash]. *)
Variable to_local_path : string → string.
Variable get_ctime : string → Q.
Variable get_local_hash : string → option string.

(** [(remote_rev, remote_hash)] as computed at the top of
    [check_download_conflict]. *)
Definition remote_rev (md : Metadata) : option string :=
  match md with
  | FileMetadata _ _ rev _ => Some rev
  | FolderMetadata _ _ => Some "folder"
  | DeletedMetadata _ _ => None
  end.

Definition remote_hash (md : Metadata) : option string :=
  match md with
  | FileMetadata _ _ _ h => Some h
  | FolderMetadata _ _ => Some "folder"
  | DeletedMetadata _ _ => None
  end.

(** [check_download_conflict]: the verdict and the state afterwards, or
    [None] when the parent loop of [set_local_rev] never ends. *)
Definition check_download_conflict (s : state) (md : Metadata)
  : option (Z * state) :=
  let dbx_path := path_lower md in
  let local_path := to_local_path (path_display md) in
  let local_rev := get_local_rev (rev_dict_cache s) dbx_path in
  if decide (remote_rev md = local_rev) then
    Some (Conflict.LocalNewerOrIdentical, s)
  else
    if Qle_bool (get_ctime local_path) (get_last_sync_for_path s dbx_path) then
      Some (Conflict.RemoteNewer, s)
    else if negb (truthy (remote_rev md)) then
      Some (Conflict.LocalNewerOrIdentical, s)
    else
      let local_hash := get_local_hash local_path in
      if decide (remote_hash md = local_hash) then
        d ← set_local_rev (rev_dict_cache s) dbx_path (remote_rev md);
        Some (Conflict.Identical,
              State d (last_sync_for_path s) (last_sync s))
      else
        Some (Conflict.Conflict, s).

End detector.
End Detector.

(** ** Local file events ([watchdog.events]) *)
Inductive EventType : Type :=
| EVENT_TYPE_CREATED
| EVENT_TYPE_DELETED
| EVENT_TYPE_MODIFIED
| EVENT_TYPE_MOVED.

#[global] Instance EventType_eq_dec : EqDecision EventType.
Proof. solve_decision. Defined.

(** A [FileSystemEvent]; only moved events carry a [dest_path]. *)
Record event : Type := Event {
  event_type : EventType;
  is_directory : bool;
  src_path : string;
  dest_path : option string;
}.

#[global] Instance event_eq_dec : EqDecision event.
Proof. solve_decision. Defined.

Definition DirCreatedEvent (p : string) := Event EVENT_TYPE_CREATED true p None.
Definition FileCreatedEvent (p : string) := Event EVENT_TYPE_CREATED false p None.
Definition DirDeletedEvent (p : string) := Event EVENT_TYPE_DELETED true p None.
Definition FileDeletedEvent (p : string) := Event EVENT_TYPE_DELETED false p None.
Definition DirModifiedEvent (p : string) := Event EVENT_TYPE_MODIFIED true p None.
Definition FileModifiedEvent (p : string) := Event EVENT_TYPE_MODIFIED false p None.
Definition DirMovedEvent (p q : string) := Event EVENT_TYPE_MOVED true p (Some q).
Definition FileMovedEvent (p q : string) := Event EVENT_TYPE_MOVED false p (Some q).

(** [get_dest_path]: [getattr(event, 'dest_path', event.src_path)] *)
Definition get_dest_path (e : event) : string :=
  default (src_path e) (dest_path e).

Definition has_type (t : EventType) (e : event) : bool :=
  bool_decide (event_type e = t).

(** ** The event normalizer *)
Module Normalizer.

(** [next(iter(i for i, e in enumerate(h) if e.event_type == t), -1)] *)
Fixpoint first_index (t : EventType) (h : list event) : Z :=
  match h with
  | [] => (-1)%Z
  | e :: h' =>
      if has_type t e then 0%Z
      else let i := first_index t h' in
           if (i <? 0)%Z then (-1)%Z else (i + 1)%Z
  end.

(** [_list_diff]: [[item for item in list1 if item not in set(list2)]] *)
Definition _list_diff (list1 list2 : list event) : list event :=
  filter (λ item, item ∉ list2) list1.

Definition _is_dir_moved (x : event) : bool :=
  has_type EVENT_TYPE_MOVED x && is_directory x.

Definition _is_moved_child (x parent : event) : bool :=
  has_type EVENT_TYPE_MOVED x
  && Path.is_child (src_path x) (src_path parent)
  && Path.is_child (get_dest_path x) (get_dest_path parent).

Definition _is_dir_deleted (x : event) : bool :=
  has_type EVENT_TYPE_DELETED x && is_directory x.

Definition _is_deleted_child (x parent : event) : bool :=
  has_type EVENT_TYPE_DELETED x
  && Path.is_child (src_path x) (src_path parent).

(** The body of the loop over the histories in [_clean_local_events]: what
    one history [h] adds to [new_events].  The second test is an [if], not
    an [elif], in the source: its [else] branch also runs after the first
    test has succeeded. *)
Definition reduce_history (h : list event) : list event :=
  match h with
  | [] => []
  | [e] => [e]
  | h0 :: h1 :: rest =>
      let path := src_path h0 in
      let hlast := List.last rest h1 in
      let n_created := length (filter (λ e, has_type EVENT_TYPE_CREATED e = true) h) in
      let n_deleted := length (filter (λ e, has_type EVENT_TYPE_DELETED e = true) h) in
      (if (n_deleted <? n_created)%nat then
         if is_directory hlast then [DirCreatedEvent path]
         else [FileCreatedEvent path]
       else [])
      ++
      (if (n_created <? n_deleted)%nat then
         if is_directory h0 then [DirDeletedEvent path]
         else [FileDeletedEvent path]
       else
         let first_created_idx := first_index EVENT_TYPE_CREATED h in
         let first_deleted_idx := first_index EVENT_TYPE_DELETED h in
         if (n_created =? 0)%nat || (first_deleted_idx <? first_created_idx)%Z then
           if is_directory h0 && is_directory hlast then
             [DirModifiedEvent path]
           else if negb (is_directory h0) && negb (is_directory hlast) then
             [FileModifiedEvent path]
           else if is_directory h0 then
             [DirDeletedEvent path; FileCreatedEvent path]
           else if is_directory h1 then
             [FileDeletedEvent path; DirCreatedEvent path]
           else []
         else [])
  end.

Section normalizer.

(** [_should_split_excluded]: reads the exclusion lists and the mignore
    rules, which are held fixed. *)
Variable _should_split_excluded : event → bool.

(** The order in which Python iterates over a [set] of paths. *)
Variable set_order : list string → list string.

(** The first loop of [_clean_local_events]: moved events that share a path
    with another event, or that cross an exclusion boundary, are split. *)
Definition split_moved (events : list event) : list event :=
  let all_src_paths := src_path <$> events in
  let all_dest_paths :=
    get_dest_path <$> filter (λ e, has_type EVENT_TYPE_MOVED e = true) events in
  let all_paths := all_src_paths ++ all_dest_paths in
  e ← events;
  if has_type EVENT_TYPE_MOVED e then
    let related :=
      filter (λ p, p = src_path e ∨ p = get_dest_path e) all_paths in
    if (2 <? length related)%nat || _should_split_excluded e then
      if is_directory e then
        [DirDeletedEvent (src_path e); DirCreatedEvent (get_dest_path e)]
      else
        [FileDeletedEvent (src_path e); FileCreatedEvent (get_dest_path e)]
    else [e]
  else [e].

(** [_clean_local_events] *)
Definition _clean_local_events (events : list event) : list event :=
  let events := split_moved events in
  let unique_paths := set_order (remove_dups (src_path <$> events)) in
  let histories :=
    (λ path, filter (λ e, src_path e = path) events) <$> unique_paths in
  h ← histories; reduce_history h.

(** The rest of [wait_for_local_changes], from the call of
    [_clean_local_events] on. *)
Definition normalize (events : list event) : list event :=
  let events := _clean_local_events events in
  let events :=
    filter (λ e, ¬ (event_type e = EVENT_TYPE_MODIFIED ∧ is_directory e = true)) events in
  let dir_moved_events := filter (λ e, _is_dir_moved e = true) events in
  let events :=
    if (0 <? length dir_moved_events)%nat then
      let child_move_events :=
        parent_event ← dir_moved_events;
        filter (λ x, _is_moved_child x parent_event = true) events in
      _list_diff events child_move_events
    else events in
  let dir_deleted_events := filter (λ x, _is_dir_deleted x = true) events in
  let events :=
    if (0 <? length dir_deleted_events)%nat then
      let child_deleted_events :=
        parent_event ← dir_deleted_events;
        filter (λ x, _is_deleted_child x parent_event = true) events in
      _list_diff events child_deleted_events
    else events in
  events.

End normalizer.
End Normalizer.

(** ** The local event handler ([FileEventHandler]) *)
Module Handler.

Section handler.
Context {str_lower : Path.Lower}.

Record state : Type := State {
  syncing : bool;
  startup : bool;
  local_file_event_queue : list event;
  queue_downloading : list string;
  _renamed_items_cache : list string;
}.

(** [is_being_downloaded] *)
Definition is_being_downloaded (h : state) (local_path : string) : bool :=
  let local_path := Path.lower local_path in
  existsb (λ p, bool_decide (local_path = Path.lower p)
                || Path.is_child local_path (Path.lower p))
          (queue_downloading h).

(** [list.remove]: drops the first occurrence. *)
Fixpoint list_remove_first (x : string) (l : list string) : list string :=
  match l with
  | [] => []
  | y :: l' => if decide (x = y) then l' else y :: list_remove_first x l'
  end.

(** [IS_FS_CASE_SENSITIVE] of [maestral.constants]. *)
Variable IS_FS_CASE_SENSITIVE : bool.

(** [rename_on_case_conflict]: lists the parent directory and may move the
    item on disk; within the handler it yields the (possibly rewritten)
    event and extends the cache of renamed items. *)
Variable rename_on_case_conflict : list string → event → list string * event.

(** [on_any_event] *)
Definition on_any_event (h : state) (e : event) : state :=
  if negb (syncing h || startup h) then h
  else if is_being_downloaded h (src_path e) then h
  else
    let '(cache, e) :=
      if IS_FS_CASE_SENSITIVE
      then rename_on_case_conflict (_renamed_items_cache h) e
      else (_renamed_items_cache h, e) in
    if bool_decide (src_path e ∈ cache) then
      State (syncing h) (startup h) (local_file_event_queue h)
        (queue_downloading h) (list_remove_first (src_path e) cache)
    else
      State (syncing h) (startup h) (local_file_event_queue h ++ [e])
        (queue_downloading h) cache.

End handler.
End Handler.

(** ** Upload and download batches *)
Module Batch.

(** A [SyncError] with the paths it carries. *)
Record SyncError : Type := MkSyncError {
  exc_dbx_path : option string;
  exc_local_path : option string;
}.

#[global] Instance SyncError_eq_dec : EqDecision SyncError.
Proof. solve_decision. Defined.

#[global] Instance Metadata_eq_dec : EqDecision Metadata.
Proof. solve_decision. Defined.

(** How the body of a decorated method ends: it returns, raises a
    [SyncError], or raises something else (named by its class). *)
Inductive outcome (A : Type) : Type :=
| Returned (a : A)
| RaisedSyncError (exc : SyncError)
| Raised (exc : string).
Arguments Returned {A} a.
Arguments RaisedSyncError {A} exc.
Arguments Raised {A} exc.

(** How a call that lets only other exceptions through ends. *)
Inductive completion (A : Type) : Type :=
| Completed (a : A)
| Aborted (exc : string).
Arguments Completed {A} a.
Arguments Aborted {A} exc.

#[global] Instance completion_eq_dec `{EqDecision A} : EqDecision (completion A).
Proof. solve_decision. Defined.

(** What a method decorated with [catch_sync_issues] returns: the value
    of the body, or a [bool]. *)
Inductive result (A : Type) : Type :=
| Value (a : A)
| Flag (b : bool).
Arguments Value {A} a.
Arguments Flag {A} b.

(** Python truthiness of a result; metadata objects are truthy. *)
Definition truth {A} (r : result A) : bool :=
  match r with
  | Value _ => true
  | Flag b => b
  end.

(** [dropbox.files.ListFolderResult] *)
Record ListFolderResult : Type := MkListFolderResult {
  entries : list Metadata;
  cursor : string;
}.

(** [posixpath.basename]: [p[p.rfind('/') + 1:]] *)
Fixpoint basename (p : string) : string :=
  match p with
  | EmptyString => EmptyString
  | String c r =>
      if (0 <? Path.count_sep p)%nat then basename r else p
  end.

(** [s.endswith(suf)] *)
Definition endswith (s suf : string) : bool :=
  Path.startswith (String.rev s) (String.rev suf).

(** A stable sort on a numeric key; [before a b] tells that key [a] goes
    strictly before key [b]. *)
Fixpoint insert_by {A} (before : nat → nat → bool) (key : A → nat)
    (x : A) (l : list A) : list A :=
  match l with
  | [] => [x]
  | y :: l' =>
      if before (key y) (key x) then y :: insert_by before key x l'
      else x :: l
  end.

Definition sort_by {A} (before : nat → nat → bool) (key : A → nat)
    (l : list A) : list A :=
  foldr (insert_by before key) [] l.

Definition ascending (a b : nat) : bool := (a <? b)%nat.
Definition descending (a b : nat) : bool := (b <? a)%nat.

Definition is_file_md (md : Metadata) : bool :=
  match md with FileMetadata _ _ _ _ => true | _ => false end.
Definition is_folder_md (md : Metadata) : bool :=
  match md with FolderMetadata _ _ => true | _ => false end.
Definition is_deleted_md (md : Metadata) : bool :=
  match md with DeletedMetadata _ _ => true | _ => false end.

Section batch.
Context {str_lower : Path.Lower}.

(** The local disk and the remote Dropbox, together with the parts of
    [UpDownSync] that only the per-item methods touch (the revision index
    among them). *)
Variable World : Type.

(** The state of [UpDownSync] that the batch methods read and write. *)
Record sync : Type := Sync {
  last_cursor : string;
  last_sync : Q;
  excluded_items : list string;
  sync_errors : list SyncError;
  download_errors : gset string;
  queued_for_download : list string;
  queued_for_upload : list string;
  world : World;
}.

Definition set_last_cursor (c : string) (s : sync) : sync :=
  Sync c (last_sync s) (excluded_items s) (sync_errors s)
    (download_errors s) (queued_for_download s) (queued_for_upload s) (world s).
Definition set_last_sync (t : Q) (s : sync) : sync :=
  Sync (last_cursor s) t (excluded_items s) (sync_errors s)
    (download_errors s) (queued_for_download s) (queued_for_upload s) (world s).
Definition set_excluded_items (l : list string) (s : sync) : sync :=
  Sync (last_cursor s) (last_sync s) l (sync_errors s)
    (download_errors s) (queued_for_download s) (queued_for_upload s) (world s).
Definition set_sync_errors (l : list SyncError) (s : sync) : sync :=
  Sync (last_cursor s) (last_sync s) (excluded_items s) l
    (download_errors s) (queued_for_download s) (queued_for_upload s) (world s).
Definition set_download_errors (d : gset string) (s : sync) : sync :=
  Sync (last_cursor s) (last_sync s) (excluded_items s) (sync_errors s)
    d (queued_for_download s) (queued_for_upload s) (world s).
Definition set_queued_for_download (q : list string) (s : sync) : sync :=
  Sync (last_cursor s) (last_sync s) (excluded_items s) (sync_errors s)
    (download_errors s) q (queued_for_upload s) (world s).
Definition set_queued_for_upload (q : list string) (s : sync) : sync :=
  Sync (last_cursor s) (last_sync s) (excluded_items s) (sync_errors s)
    (download_errors s) (queued_for_download s) q (world s).

(** [EXCLUDED_FILE_NAMES] of [maestral.constants]. *)
Variable EXCLUDED_FILE_NAMES : list string.

(** [to_local_path] consults the disk for the casing of the parents. *)
Variable to_local_path : World → string → string.

(** [to_dbx_path] strips the configured Dropbox folder; it raises a
    [ValueError], here [None], on an empty path and on a path outside of the
    Dropbox folder. *)
Variable to_dbx_path : string → option string.

(** What [is_mignore] consults: whether the mignore file holds no pattern
    ([len(self.mignore_rules.patterns) == 0]), the pattern matcher behind
    [_is_mignore_path], and the revision index as [get_local_rev] reads
    it. *)
Variable mignore_is_empty : World → bool.
Variable _is_mignore_path : World → string → bool → bool.
Variable get_local_rev : World → string → option string.

(** The bodies of [_create_local_entry] and [_apply_event], which talk to
    the disk and to the remote.  [_create_local_entry] returns the entry
    or [None]; [_apply_event] has no [return] statement. *)
Variable _create_local_entry_body :
  Metadata → sync → outcome (option Metadata) * sync.
Variable _apply_event_body : event → sync → outcome (option unit) * sync.

(** [SyncStateSet.add] on [download_errors] *)
Definition download_errors_add (dbx_path : string) (s : sync) : sync :=
  set_download_errors
    ({[ Path.rstrip_sep (Path.lower dbx_path) ]} ∪ download_errors s) s.

(** [SyncStateSet.discard] on [download_errors] *)
Definition download_errors_discard (dbx_path : string) (s : sync) : sync :=
  set_download_errors
    (download_errors s ∖ {[ Path.rstrip_sep (Path.lower dbx_path) ]}) s.

(** The decorator [catch_sync_issues].  [has_metadata_arg] is
    [any(isinstance(a, Metadata) for a in args)].  A [SyncError] without a
    [dbx_path] makes [os.path.basename] raise a [TypeError]. *)
Definition catch_sync_issues {A B} (has_metadata_arg : bool)
    (func : A → sync → outcome (option B) * sync)
    (arg : A) (s : sync) : completion (result B) * sync :=
  match func arg s with
  | (Returned None, s') => (Completed (Flag true), s')
  | (Returned (Some v), s') => (Completed (Value v), s')
  | (RaisedSyncError exc, s') =>
      match exc_dbx_path exc with
      | None => (Aborted "TypeError", s')
      | Some dbx_path =>
          let local_path :=
            default (to_local_path (world s') dbx_path) (exc_local_path exc) in
          let exc := MkSyncError (Some dbx_path) (Some local_path) in
          let s' := set_sync_errors (sync_errors s' ++ [exc]) s' in
          let s' := if has_metadata_arg then download_errors_add dbx_path s'
                    else s' in
          (Completed (Flag false), s')
      end
  | (Raised exc, s') => (Aborted exc, s')
  end.

Definition _create_local_entry := catch_sync_issues true _create_local_entry_body.
Definition _apply_event := catch_sync_issues false _apply_event_body.

(** A [for] loop over decorated calls: the first exception ends it. *)
Fixpoint for_each {A B} (f : A → sync → completion (result B) * sync)
    (items : list A) (s : sync) : completion (list (result B)) * sync :=
  match items with
  | [] => (Completed [], s)
  | x :: rest =>
      match f x s with
      | (Completed r, s1) =>
          match for_each f rest s1 with
          | (Completed rs, s2) => (Completed (r :: rs), s2)
          | (Aborted exc, s2) => (Aborted exc, s2)
          end
      | (Aborted exc, s1) => (Aborted exc, s1)
      end
  end.

(** The [ThreadPoolExecutor] block: every submitted call runs (the pool
    is drained when the [with] block is left), here one after the other;
    [f.result()] re-raises the exception of a call. *)
Fixpoint in_pool {A B} (f : A → sync → completion (result B) * sync)
    (items : list A) (s : sync) : completion (list (result B)) * sync :=
  match items with
  | [] => (Completed [], s)
  | x :: rest =>
      let '(r, s1) := f x s in
      let '(rs, s2) := in_pool f rest s1 in
      match r, rs with
      | Completed r, Completed rs => (Completed (r :: rs), s2)
      | Aborted exc, _ => (Aborted exc, s2)
      | _, Aborted exc => (Aborted exc, s2)
      end
  end.

(** [is_excluded] *)
Definition is_excluded (dbx_path : string) : bool :=
  let dbx_path := Path.lower dbx_path in
  if bool_decide (dbx_path ∈ ["/"; ""]) then true
  else
    let basename := basename dbx_path in
    let test0 := bool_decide (basename ∈ EXCLUDED_FILE_NAMES) in
    let test1 := Path.startswith basename "~$" in
    let test2 := Path.startswith basename ".~" in
    let test3 := Path.startswith basename "~" && endswith basename ".tmp" in
    test0 || test1 || test2 || test3.

(** [is_excluded_by_user] *)
Definition is_excluded_by_user (s : sync) (dbx_path : string) : bool :=
  let dbx_path := Path.lower dbx_path in
  existsb (λ f, bool_decide (dbx_path = f) || Path.is_child dbx_path f)
    (excluded_items s).

(** [clean_excluded_items_list]; the elements of the set are listed in
    the order of their first occurrence. *)
Definition clean_excluded_items_list (folder_list : list string) : list string :=
  let folder_list :=
    remove_dups ((λ f, Path.rstrip_sep (Path.lower f)) <$> folder_list) in
  foldl (λ clean_list folder,
           filter (λ f, Path.is_child f folder = false) clean_list)
    folder_list folder_list.

(** [filter_excluded_changes_remote] *)
Definition filter_excluded_changes_remote (s : sync) (changes : ListFolderResult)
  : ListFolderResult * ListFolderResult :=
  let entries_filtered :=
    filter (λ e, negb (is_excluded_by_user s (path_lower e))
                 || is_excluded (path_lower e) = true) (entries changes) in
  let entries_discarded :=
    filter (λ e, e ∉ entries_filtered) (remove_dups (entries changes)) in
  (MkListFolderResult entries_filtered (cursor changes),
   MkListFolderResult entries_discarded (cursor changes)).

(** The metadata entries among the results:
    [[entry for entry in downloaded if not isinstance(entry, bool)]] *)
Definition non_bool {A} (l : list (result A)) : list A :=
  omap (λ r, match r with Value a => Some a | Flag _ => None end) l.

(** [apply_remote_changes]; [changes] is [None] when the caller passes
    [False], and the method then returns [False]. *)
Definition apply_remote_changes (changes : option ListFolderResult)
    (save_cursor : bool) (s : sync)
  : completion (option (list Metadata * bool)) * sync :=
  match changes with
  | None => (Completed None, s)
  | Some changes =>
      let '(changes_included, changes_excluded) :=
        filter_excluded_changes_remote s changes in
      let s := set_queued_for_download
                 (queued_for_download s ++
                  ((λ md, to_local_path (world s) (path_display md))
                     <$> entries changes_included)) s in
      let deleted_excluded :=
        filter (λ x, is_deleted_md x = true) (entries changes_excluded) in
      let s := foldl (λ s d,
                 set_excluded_items
                   (clean_excluded_items_list
                      (filter (λ f, Path.startswith f (path_lower d) = false)
                         (excluded_items s))) s) s deleted_excluded in
      let folders := filter (λ x, is_folder_md x = true) (entries changes_included) in
      let files := filter (λ x, is_file_md x = true) (entries changes_included) in
      let deleted := filter (λ x, is_deleted_md x = true) (entries changes_included) in
      let folders := sort_by ascending (λ x, Path.count_sep (path_display x)) folders in
      let deleted := sort_by descending (λ x, Path.count_sep (path_display x)) deleted in
      match for_each _create_local_entry deleted s with
      | (Aborted exc, s) => (Aborted exc, s)
      | (Completed downloaded1, s) =>
      match for_each _create_local_entry folders s with
      | (Aborted exc, s) => (Aborted exc, s)
      | (Completed downloaded2, s) =>
      match in_pool _create_local_entry files s with
      | (Aborted exc, s) => (Aborted exc, s)
      | (Completed downloaded3, s) =>
          let downloaded := downloaded1 ++ downloaded2 ++ downloaded3 in
          let success := forallb truth downloaded in
          let s := if save_cursor then set_last_cursor (cursor changes) s else s in
          (Completed (Some (non_bool downloaded, success)), s)
      end end end
  end.

(** [clear_sync_error] with both paths given *)
Definition clear_sync_error (dbx_path : string) (s : sync) : sync :=
  let s := set_sync_errors
             (filter (λ error, Path.lower <$> exc_dbx_path error
                               ≠ Some (Path.lower dbx_path))
                (sync_errors s)) s in
  download_errors_discard dbx_path s.

(** [is_mignore]: it raises a [ValueError] on a moved event and when
    [to_dbx_path] does, unless the mignore file holds no pattern. *)
Definition is_mignore (w : World) (event : event) : completion bool :=
  if mignore_is_empty w then Completed false
  else if has_type EVENT_TYPE_MOVED event then Aborted "ValueError"
  else
    match to_dbx_path (src_path event) with
    | None => Aborted "ValueError"
    | Some dbx_path =>
        Completed (_is_mignore_path w dbx_path (is_directory event)
                   && negb (Detector.truthy (get_local_rev w dbx_path)))
    end.

(** [_filter_excluded_changes_local]: the events to keep, and the state
    after the bookkeeping of the excluded ones; the exceptions of
    [to_dbx_path] and [is_mignore] end the loop. *)
Fixpoint _filter_excluded_changes_local (events : list event) (s : sync)
  : completion (list event) * sync :=
  match events with
  | [] => (Completed [], s)
  | event :: rest =>
      let local_path := get_dest_path event in
      match to_dbx_path local_path with
      | None => (Aborted "ValueError", s)
      | Some dbx_path =>
          if is_excluded dbx_path then _filter_excluded_changes_local rest s
          else if is_excluded_by_user s dbx_path then
            let s :=
              if has_type EVENT_TYPE_DELETED event then clear_sync_error dbx_path s
              else set_sync_errors
                     (sync_errors s
                      ++ [MkSyncError (Some dbx_path) (Some local_path)]) s in
            _filter_excluded_changes_local rest s
          else
            match is_mignore (world s) event with
            | Aborted exc => (Aborted exc, s)
            | Completed true => _filter_excluded_changes_local rest s
            | Completed false =>
                match _filter_excluded_changes_local rest s with
                | (Completed kept, s) => (Completed (event :: kept), s)
                | (Aborted exc, s) => (Aborted exc, s)
                end
            end
      end
  end.

(** The tests of the loop of [_filter_excluded_changes_local] on one event:
    whether the event is kept, or the exception that ends the loop. *)
Definition passes (s : sync) (event : event) : completion bool :=
  match to_dbx_path (get_dest_path event) with
  | None => Aborted "ValueError"
  | Some dbx_path =>
      if is_excluded dbx_path || is_excluded_by_user s dbx_path
      then Completed false
      else match is_mignore (world s) event with
           | Completed b => Completed (negb b)
           | Aborted exc => Aborted exc
           end
  end.

(** [apply_local_changes] *)
Definition apply_local_changes (events : list event) (local_cursor : Q)
    (s : sync) : completion unit * sync :=
  match _filter_excluded_changes_local events s with
  | (Aborted exc, s) => (Aborted exc, s)
  | (Completed events, s) =>
  let dir_events :=
    filter (λ e, is_directory e && negb (has_type EVENT_TYPE_DELETED e) = true) events in
  let file_events :=
    filter (λ e, negb (is_directory e) && negb (has_type EVENT_TYPE_DELETED e) = true)
      events in
  let deleted_events := filter (λ e, has_type EVENT_TYPE_DELETED e = true) events in
  let dir_events := sort_by ascending (λ x, Path.count_sep (src_path x)) dir_events in
  let deleted_events :=
    sort_by descending (λ x, Path.count_sep (src_path x)) deleted_events in
  let s := set_queued_for_upload
             (queued_for_upload s ++ (get_dest_path <$> events)) s in
  match for_each _apply_event deleted_events s with
  | (Aborted exc, s) => (Aborted exc, s)
  | (Completed _, s) =>
  match for_each _apply_event dir_events s with
  | (Aborted exc, s) => (Aborted exc, s)
  | (Completed _, s) =>
  match in_pool _apply_event file_events s with
  | (Aborted exc, s) => (Aborted exc, s)
  | (Completed success, s) =>
      let s := if forallb truth success then set_last_sync local_cursor s else s in
      (Completed (), s)
  end end end end.

End batch.

Arguments Sync {World}.
Arguments last_cursor {World} s.
Arguments last_sync {World} s.
Arguments excluded_items {World} s.
Arguments sync_errors {World} s.
Arguments download_errors {World} s.
Arguments queued_for_download {World} s.
Arguments queued_for_upload {World} s.
Arguments world {World} s.
Arguments set_last_cursor {World} c s.
Arguments set_last_sync {World} t s.
Arguments set_excluded_items {World} l s.
Arguments set_sync_errors {World} l s.
Arguments set_download_errors {World} d s.
Arguments set_queued_for_download {World} q s.
Arguments set_queued_for_upload {World} q s.

End Batch.

(** ** Scenarios used to exercise the batches *)
Module Scenario.
Import Batch.

(** A download that fails with a sync error for every entry. *)
Definition failing_download (md : Metadata) (s : sync ())
  : outcome (option Metadata) * sync () :=
  (RaisedSyncError (MkSyncError (Some (path_lower md)) None), s).

(** A remote call that fails with a sync error for every event. *)
Definition failing_upload (dbx_path : string) (e : event) (s : sync ())
  : outcome (option ()) * sync () :=
  (RaisedSyncError (MkSyncError (Some dbx_path) None), s).

(** A change list with one file, and a state that precedes it. *)
Definition one_file : ListFolderResult :=
  MkListFolderResult [FileMetadata "/a.txt" "/a.txt" "0123456789" "h"] "cursor2".

Definition at_cursor1 : sync () := Sync "cursor1" 50 [] [] ∅ [] [] tt.

End Scenario.

(** ** Further invariants of the revision index *)
Module IndexShape.
Import RevIndex.

Section index_shape.
Context {str_lower : Path.Lower}.

(** Every strict ancestor of an indexed path is indexed as well. *)
Definition ancestors_indexed (d : rev_dict) : Prop :=
  ∀ k v, d !! k = Some v →
    ∃ l, ancestors k = Some l ∧ ∀ a, a ∈ l → is_Some (d !! a).

(** Every key is a lower-case path that starts at the root. *)
Definition well_keyed (d : rev_dict) : Prop :=
  ∀ k v, d !! k = Some v →
    Path.lower k = k ∧ Path.startswith k "/" = true.

End index_shape.
End IndexShape.

(** ** Lists without repetition, remote clean-up, history, queues *)
Module Remote.
Import Batch.

(** [list(OrderedDict.fromkeys(l))]: the elements of [l] without
    repetition, each at the place of its first occurrence. *)
Fixpoint fromkeys (l : list string) : list string :=
  match l with
  | [] => []
  | x :: l' => x :: filter (λ y, y ≠ x) (fromkeys l')
  end.

(** The history of one path: its entries in the order of the list. *)
Definition history (es : list Metadata) (unique_path : string) : list Metadata :=
  filter (λ e, path_lower e = unique_path) es.

(** [_clean_remote_changes]: of the entries of one path the last one is
    kept ([h[-1]]; a history is never empty). *)
Definition _clean_remote_changes (changes : ListFolderResult) : ListFolderResult :=
  let all_paths := path_lower <$> entries changes in
  let unique_paths := fromkeys all_paths in
  let histories := history (entries changes) <$> unique_paths in
  let new_entries := omap (λ h, last h) histories in
  MkListFolderResult new_entries (cursor changes).

(** [UpDownSync._max_history] *)
Definition _max_history : nat := 30.

(** [l[-n:]] for a positive [n] *)
Definition last_n {A} (n : nat) (l : list A) : list A :=
  drop (length l - n) l.

(** [_save_to_history], as a function of the stored [recent_changes] *)
Definition _save_to_history (recent_changes : list string) (dbx_path : string)
  : list string :=
  let recent_changes := recent_changes ++ [dbx_path] in
  let recent_changes := fromkeys recent_changes in
  last_n _max_history recent_changes.

(** [remove_from_queue]: [q.queue.remove(item)] for every item, a
    [ValueError] being ignored. *)
Definition remove_from_queue (q : list string) (items : list string) : list string :=
  foldl (λ q item, Handler.list_remove_first item q) q items.

(** [InQueue.__enter__] and, once the timer has fired, [InQueue.__exit__]. *)
Definition InQueue_enter (names : list string) (q : list string) : list string :=
  foldl (λ q name, q ++ [name]) q names.
Definition InQueue_exit (names : list string) (q : list string) : list string :=
  remove_from_queue q names.

End Remote.

(** ** Bursts of events on one path *)
Module Burst.

(** [len([e for e in h if e.event_type == t])], as in the loop over the
    histories. *)
Definition count_type (t : EventType) (h : list event) : nat :=
  length (filter (λ e, has_type t e = true) h).

(** All events of [h] are about the path [p], and none is a move. *)
Definition about (p : string) (h : list event) : Prop :=
  Forall (λ e, src_path e = p ∧ event_type e ≠ EVENT_TYPE_MOVED) h.

End Burst.

(* ================================================================== *)
(** * Properties *)
(* ================================================================== *)

(** ** Path helpers *)

Example dirname_nested : Path.dirname "/a/b/c.txt" = "/a/b".
Proof. reflexivity. Qed.
Example dirname_top : Path.dirname "/a" = "/".
Proof. reflexivity. Qed.
Example dirname_relative : Path.dirname "a" = "".
Proof. reflexivity. Qed.
Example dirname_double_sep : Path.dirname "//a" = "//".
Proof. reflexivity. Qed.
Example dirname_inner_seps : Path.dirname "/a//b" = "/a".
Proof. reflexivity. Qed.
Example lower_mixed : Path.ascii_lower "/Foo/BAR.txt" = "/foo/bar.txt".
Proof. reflexivity. Qed.
Example is_child_yes : Path.is_child "/foo/bar" "/foo" = true.
Proof. reflexivity. Qed.
Example is_child_sibling : Path.is_child "/foobar" "/foo" = false.
Proof. reflexivity. Qed.
Example is_child_self : Path.is_child "/foo/" "/foo" = false.
Proof. reflexivity. Qed.
Example ancestors_nested :
RevIndex.ancestors "/a/b/c.txt" = Some ["/a/b"; "/a"].
Proof. reflexivity. Qed.
Example ancestors_relative : RevIndex.ancestors "a/b" = None.
Proof. reflexivity. Qed.
Example set_rev_file :
RevIndex.set_local_rev ∅ "/A/b.txt" (Some "r1") =
Some (<["/a" := "folder"]> (<["/a/b.txt" := "r1"]> ∅)).
Proof. reflexivity. Qed.

Section path_facts.
Import Path.

Lemma startswith_refl s : startswith s s = true.
Proof.
  induction s as [|c s IH]; simpl; [done|].
  rewrite bool_decide_eq_true_2; done.
Qed.

Lemma startswith_trans s t u :
  startswith s t = true → startswith t u = true → startswith s u = true.
Proof.
  revert s t; induction u as [|c u IH]; intros s t Hst Htu; [by destruct s|].
  destruct t as [|b t]; [done|]. destruct s as [|a s]; [done|].
  simpl in *.
  apply andb_true_iff in Hst as [Hba Hst], Htu as [Hcb Htu].
  apply bool_decide_eq_true in Hba, Hcb. subst.
  rewrite bool_decide_eq_true_2 by done. simpl. by eapply IH.
Qed.

Lemma startswith_length s t :
  startswith s t = true → String.length t ≤ String.length s.
Proof.
  revert s; induction t as [|b t IH]; intros [|a s] H; simpl in *; try lia; try done.
  apply andb_true_iff in H as [_ H]. apply IH in H. lia.
Qed.

Lemma startswith_same_length s t :
  startswith s t = true → String.length t = String.length s → t = s.
Proof.
  revert s; induction t as [|b t IH]; intros [|a s] H Hl; simpl in *; try done.
  apply andb_true_iff in H as [Hba H]. apply bool_decide_eq_true in Hba.
  subst. f_equal. apply IH; [done|lia].
Qed.

Lemma startswith_rstrip_sep s : startswith s (rstrip_sep s) = true.
Proof.
  induction s as [|c s IH]; simpl; [done|].
  destruct (is_sep c && bool_decide (rstrip_sep s = "")); simpl; [done|].
  by rewrite bool_decide_eq_true_2.
Qed.

Lemma startswith_upto_last_sep s : startswith s (upto_last_sep s) = true.
Proof.
  induction s as [|c s IH]; simpl; [done|].
  destruct (is_sep c); simpl.
  - by rewrite bool_decide_eq_true_2.
  - case_bool_decide; simpl; [done|]. by rewrite bool_decide_eq_true_2.
Qed.

(** [dirname p] is a string prefix of [p]. *)
Lemma startswith_dirname p : startswith p (dirname p) = true.
Proof.
  unfold dirname.
  destruct (negb (bool_decide (upto_last_sep p = "")) && negb (all_sep (upto_last_sep p))).
  - eapply startswith_trans; [apply startswith_upto_last_sep|apply startswith_rstrip_sep].
  - apply startswith_upto_last_sep.
Qed.

Lemma dirname_length p : String.length (dirname p) ≤ String.length p.
Proof. apply startswith_length, startswith_dirname. Qed.

(** Unless [dirname] is stuck on [p], it is strictly shorter than [p]. *)
Lemma dirname_shorter p :
  dirname p ≠ p → String.length (dirname p) < String.length p.
Proof.
  intros Hne. pose proof (dirname_length p) as Hle.
  destruct (decide (String.length (dirname p) = String.length p)) as [Heq|]; [|lia].
  destruct Hne. apply startswith_same_length; [apply startswith_dirname|done].
Qed.

(** A path beneath [parent] starts with [parent], trailing separators of
    [parent] apart. *)
Lemma is_child_startswith sub parent :
  is_child sub parent = true → startswith sub (rstrip_sep parent) = true.
Proof.
  unfold is_child. intros [H _]%andb_true_iff.
  eapply startswith_trans; [apply startswith_rstrip_sep|].
  eapply startswith_trans; [exact H|].
  generalize (rstrip_sep parent) as s.
  induction s as [|c s IH]; simpl; [done|].
  rewrite bool_decide_eq_true_2 by done. exact IH.
Qed.

Lemma is_sep_lower_char c : is_sep (lower_char c) = is_sep c.
Proof.
  unfold is_sep, lower_char.
  destruct ((65 <=? nat_of_ascii c)%nat && (nat_of_ascii c <=? 90)%nat) eqn:E; [|done].
  apply andb_true_iff in E as [E1%Nat.leb_le E2%Nat.leb_le].
  rewrite !bool_decide_eq_false_2; [done| |].
  - intros ->. change (nat_of_ascii "/") with 47 in E1. lia.
  - intros H%(f_equal nat_of_ascii). rewrite nat_ascii_embedding in H by lia.
    change (nat_of_ascii "/") with 47 in H. lia.
Qed.

Lemma ascii_lower_rooted p : rooted (ascii_lower p) = rooted p.
Proof.
  destruct p as [|c r]; simpl; [done|]. rewrite is_sep_lower_char. f_equal.
  destruct r as [|b r]; simpl; [done|].
  assert (bool_decide ("/"%char = lower_char b) = bool_decide ("/"%char = b))
    as ->; [|by destruct r].
  pose proof (is_sep_lower_char b) as H. unfold is_sep in H.
  apply bool_decide_ext. split; intros E; symmetry in E; symmetry.
  - eapply bool_decide_eq_true_1. rewrite <- H. by apply bool_decide_eq_true_2.
  - eapply bool_decide_eq_true_1. rewrite H. by apply bool_decide_eq_true_2.
Qed.

Lemma upto_last_sep_ends s :
  upto_last_sep s = "" ∨ ends_with_sep (upto_last_sep s) = true.
Proof.
  induction s as [|c s IH]; simpl; [by left|].
  destruct (is_sep c) eqn:Ec.
  - right. simpl. destruct (upto_last_sep s) eqn:E; [done|].
    destruct IH as [?|IH]; [done|]. exact IH.
  - case_bool_decide as E; [by left|]. right. simpl.
    destruct (upto_last_sep s) eqn:E'; [done|].
    destruct IH as [?|IH]; [done|]. exact IH.
Qed.

Lemma rstrip_sep_shorter s :
  ends_with_sep s = true → String.length (rstrip_sep s) < String.length s.
Proof.
  induction s as [|c s IH]; simpl; [done|].
  intros H. destruct s as [|b s].
  - simpl. rewrite H. simpl. lia.
  - specialize (IH H).
    destruct (is_sep c && bool_decide (rstrip_sep (String b s) = "")); simpl in *; lia.
Qed.

(** On an absolute path other than the root, [dirname] makes progress and
    stays absolute. *)
Lemma dirname_rooted x :
  rooted x = true → x ≠ "/" →
  rooted (dirname x) = true ∧ String.length (dirname x) < String.length x.
Proof.
  destruct x as [|c r]; [done|].
  intros [Hc Hr]%andb_true_iff Hx. apply negb_true_iff in Hr.
  apply bool_decide_eq_true in Hc. subst c.
  destruct r as [|b r]; [done|].
  assert (is_sep b = false) as Hb.
  { apply bool_decide_eq_false. intros ->. simpl in Hr. by destruct r. }
  assert (b ≠ "/"%char) as Hb' by (by apply bool_decide_eq_false in Hb).
  set (h := upto_last_sep (String b r)).
  assert (upto_last_sep (String "/" (String b r)) = String "/" h) as Hhead
    by reflexivity.
  assert (h = "" ∨ ∃ h', h = String b h') as [Hh|[h' Hh]].
  { unfold h. simpl. rewrite Hb. case_bool_decide; [by left|right; eauto]. }
  - unfold dirname. rewrite Hhead, Hh. simpl. split; [done|lia].
  - assert (dirname (String "/" (String b r)) = String "/" (String b (rstrip_sep h')))
      as ->.
    { unfold dirname. rewrite Hhead, Hh. simpl. rewrite Hb. simpl. done. }
    split.
    + simpl. rewrite bool_decide_eq_false_2 by congruence. done.
    + destruct (upto_last_sep_ends (String b r)) as [E|E]; fold h in E;
        [congruence|].
      rewrite Hh in E. apply rstrip_sep_shorter in E. simpl in E. rewrite Hb in E.
      simpl in E.
      pose proof (startswith_length _ _ (startswith_upto_last_sep (String b r))) as L.
      fold h in L. rewrite Hh in L. simpl in *. lia.
Qed.

Lemma lower_char_idem c : lower_char (lower_char c) = lower_char c.
Proof.
  unfold lower_char at 2.
  destruct ((65 <=? nat_of_ascii c)%nat && (nat_of_ascii c <=? 90)%nat) eqn:E;
    [|unfold lower_char; by rewrite E].
  apply andb_true_iff in E as [E1%Nat.leb_le E2%Nat.leb_le].
  unfold lower_char. rewrite nat_ascii_embedding by lia.
  assert ((nat_of_ascii c + 32 <=? 90)%nat = false) as ->
    by (apply Nat.leb_gt; lia).
  rewrite andb_false_r.
  by rewrite (proj2 (Nat.leb_le _ _) E1), (proj2 (Nat.leb_le _ _) E2).
Qed.

Lemma ascii_lower_idem s : ascii_lower (ascii_lower s) = ascii_lower s.
Proof. induction s as [|c s IH]; simpl; [done|]. by rewrite lower_char_idem, IH. Qed.

Lemma ascii_lower_eq_nil s : ascii_lower s = "" ↔ s = "".
Proof. by destruct s. Qed.

Lemma rstrip_sep_ascii_lower s :
  rstrip_sep (ascii_lower s) = ascii_lower (rstrip_sep s).
Proof.
  induction s as [|c s IH]; simpl; [done|].
  rewrite is_sep_lower_char, IH.
  assert (bool_decide (ascii_lower (rstrip_sep s) = "")
          = bool_decide (rstrip_sep s = "")) as ->
    by (apply bool_decide_ext, ascii_lower_eq_nil).
  by destruct (is_sep c && bool_decide (rstrip_sep s = "")).
Qed.

Lemma upto_last_sep_ascii_lower s :
  upto_last_sep (ascii_lower s) = ascii_lower (upto_last_sep s).
Proof.
  induction s as [|c s IH]; simpl; [done|].
  rewrite is_sep_lower_char, IH.
  assert (bool_decide (ascii_lower (upto_last_sep s) = "")
          = bool_decide (upto_last_sep s = "")) as ->
    by (apply bool_decide_ext, ascii_lower_eq_nil).
  destruct (is_sep c); [done|]. by case_bool_decide.
Qed.

Lemma all_sep_ascii_lower s : all_sep (ascii_lower s) = all_sep s.
Proof.
  induction s as [|c s IH]; simpl; [done|]. by rewrite is_sep_lower_char, IH.
Qed.

(** The ASCII lower-casing and [dirname] commute. *)
Lemma ascii_lower_dirname s : ascii_lower (dirname s) = dirname (ascii_lower s).
Proof.
  unfold dirname. rewrite upto_last_sep_ascii_lower, all_sep_ascii_lower.
  assert (bool_decide (ascii_lower (upto_last_sep s) = "")
          = bool_decide (upto_last_sep s = "")) as ->
    by (apply bool_decide_ext, ascii_lower_eq_nil).
  destruct (negb (bool_decide (upto_last_sep s = ""))
            && negb (all_sep (upto_last_sep s))); [|done].
  by rewrite rstrip_sep_ascii_lower.
Qed.

End path_facts.

(** ** The revision index *)

Example ancestors_stuck : RevIndex.ancestors "//a/b" = None.
Proof. reflexivity. Qed.

Section rev_index_facts.
Import Path RevIndex.

Lemma parents_from_chain n x l : parents_from n x = Some l → chain x l.
Proof.
  revert x l; induction n as [|n IH]; intros x l H; simpl in H; [done|].
  destruct (decide (x = "/")) as [->|Hx].
  - injection H as <-. constructor.
  - destruct (parents_from n (dirname x)) as [l'|] eqn:E; simpl in H; [|done].
    injection H as <-. constructor; [done|]. by apply IH.
Qed.

Lemma parents_from_mono n m x l :
  parents_from n x = Some l → n ≤ m → parents_from m x = Some l.
Proof.
  revert m x l; induction n as [|n IH]; intros m x l H Hle; simpl in H; [done|].
  destruct m as [|m]; [lia|]. simpl.
  destruct (decide (x = "/")); [done|].
  destruct (parents_from n (dirname x)) as [l'|] eqn:E; simpl in H; [|done].
  rewrite (IH m _ l'); [done|done|lia].
Qed.

Lemma chain_functional x l1 l2 : chain x l1 → chain x l2 → l1 = l2.
Proof.
  intros H; revert l2; induction H as [|x l Hx H IH]; intros l2 H2.
  - by inversion H2.
  - inversion H2; subst; [done|]. f_equal. by apply IH.
Qed.

(** A loop that visits [x] cannot be stuck on [x]. *)
Lemma chain_moves x l : chain x (x :: l) → dirname x ≠ x.
Proof.
  intros H Heq. inversion H as [|? ? Hx H' E1]; subst.
  rewrite Heq in H'.
  pose proof (chain_functional _ _ _ H H') as Hl.
  apply (f_equal length) in Hl. simpl in Hl. lia.
Qed.

(** The fuel [S (length x)] is enough for every run that ends. *)
Lemma chain_parents_from x l :
  chain x l → parents_from (S (String.length x)) x = Some l.
Proof.
  induction 1 as [|x l Hx H IH]; [done|].
  assert (dirname x ≠ x) as Hmv by (eapply chain_moves; by constructor).
  apply dirname_shorter in Hmv.
  change (parents_from (S (String.length x)) x) with
    (if decide (x = "/") then Some []
     else cons x <$> parents_from (String.length x) (dirname x)).
  destruct (decide (x = "/")); [done|].
  rewrite (parents_from_mono _ (String.length x) _ _ IH); [done|lia].
Qed.

(** Running out of fuel means that the loop never ends: more fuel does not
    help. *)
Lemma parents_from_diverges x :
  parents_from (S (String.length x)) x = None → ∀ n, parents_from n x = None.
Proof.
  intros H n. destruct (parents_from n x) as [l|] eqn:E; [|done].
  apply parents_from_chain, chain_parents_from in E. congruence.
Qed.

Lemma ancestors_chain p l : ancestors p = Some l ↔ chain (dirname p) l.
Proof.
  unfold ancestors. split.
  - apply parents_from_chain.
  - intros H. apply chain_parents_from in H.
    eapply parents_from_mono; [done|]. pose proof (dirname_length p). lia.
Qed.

(** The parent loop writes ["folder"] at exactly the paths it visits. *)
Lemma set_parents_mark n x d :
  set_parents n x d = (λ l, mark_folders l d) <$> parents_from n x.
Proof.
  revert x d; induction n as [|n IH]; intros x d; simpl; [done|].
  destruct (decide (x = "/")); [done|].
  rewrite IH. by destruct (parents_from n (dirname x)).
Qed.

Lemma lookup_mark_folders l (d : rev_dict) k :
  mark_folders l d !! k = if decide (k ∈ l) then Some "folder" else d !! k.
Proof.
  revert d; induction l as [|a l IH]; intros d; simpl.
  - destruct (decide (k ∈ [])) as [H|]; [by apply elem_of_nil in H|done].
  - change (mark_folders (a :: l) d) with (mark_folders l (<[a := "folder"]> d)).
    rewrite IH. destruct (decide (k ∈ l)) as [Hl|Hl].
    + rewrite decide_True; [done|by right].
    + destruct (decide (k = a)) as [->|Hka].
      * rewrite lookup_insert_eq. rewrite decide_True; [done|by left].
      * rewrite lookup_insert_ne by done.
        rewrite decide_False; [done|]. by intros [?|?]%elem_of_cons.
Qed.

(** Every visited path is a string prefix of the start. *)
Lemma chain_startswith x l a : chain x l → a ∈ l → startswith x a = true.
Proof.
  induction 1 as [|x l Hx H IH]; intros Ha; [by apply elem_of_nil in Ha|].
  apply elem_of_cons in Ha as [->|Ha]; [apply startswith_refl|].
  eapply startswith_trans; [apply startswith_dirname|by apply IH].
Qed.

(** The loop started at a visited path visits a part of the same paths. *)
Lemma chain_suffix x l a :
  chain x l → a ∈ l → ∃ l', chain (dirname a) l' ∧ l' ⊆ l.
Proof.
  induction 1 as [|x l Hx H IH]; intros Ha; [by apply elem_of_nil in Ha|].
  apply elem_of_cons in Ha as [->|Ha].
  - exists l. split; [done|]. intros b Hb. by right.
  - destruct (IH Ha) as (l' & Hc & Hsub). exists l'. split; [done|].
    intros b Hb. right. by apply Hsub.
Qed.

Lemma ancestors_startswith p l a :
  ancestors p = Some l → a ∈ l → startswith p a = true.
Proof.
  intros H%ancestors_chain Ha.
  eapply startswith_trans; [apply startswith_dirname|by eapply chain_startswith].
Qed.

(** A path is not among its own strict ancestors. *)
Lemma ancestors_strict p l : ancestors p = Some l → p ∉ l.
Proof.
  intros H%ancestors_chain Hp.
  pose proof (chain_startswith _ _ _ H Hp) as Hpre%startswith_length.
  destruct l as [|x l]; [by apply elem_of_nil in Hp|].
  inversion H as [|? ? Hx H' E1]; subst.
  destruct (decide (dirname p = p)) as [Heq|Hne].
  - rewrite Heq in H. by apply chain_moves in H.
  - apply dirname_shorter in Hne. lia.
Qed.

Lemma ancestors_of_ancestor p l a :
  ancestors p = Some l → a ∈ l → ∃ l', ancestors a = Some l' ∧ l' ⊆ l.
Proof.
  intros H%ancestors_chain Ha.
  destruct (chain_suffix _ _ _ H Ha) as (l' & Hc & Hsub).
  exists l'. split; [by apply ancestors_chain|done].
Qed.

End rev_index_facts.

Section rev_index_invariant.
Import Path RevIndex.
Context {str_lower : Lower}.

(** A call that stores a new revision returns exactly when the parent loop
    ends, and then the index holds the revision and the marked parents. *)
Lemma set_local_rev_store (d : rev_dict) p r d' :
  d !! lower p ≠ Some r →
  set_local_rev d p (Some r) = Some d' →
  ∃ l, ancestors (lower p) = Some l ∧
       d' = mark_folders l (<[lower p := r]> d).
Proof.
  intros Hne H. unfold set_local_rev in H.
  destruct (decide (Some r = d !! lower p)) as [E|_]; [by destruct Hne|].
  rewrite set_parents_mark in H. fold (ancestors (lower p)) in H.
  destruct (ancestors (lower p)) as [l|]; simpl in H; [|done].
  injection H as <-. by exists l.
Qed.

Lemma set_local_rev_same (d : rev_dict) p rev :
  d !! lower p = rev → set_local_rev d p rev = Some d.
Proof. intros H. unfold set_local_rev. by rewrite decide_True. Qed.

Lemma set_local_rev_clear (d : rev_dict) p v :
  d !! lower p = Some v →
  set_local_rev d p None = Some (pop_prefixed (lower p) d).
Proof. intros H. unfold set_local_rev. rewrite decide_False; [done|by rewrite H]. Qed.

Lemma lookup_pop_prefixed (d : rev_dict) p k :
  pop_prefixed p d !! k = if startswith k p then None else d !! k.
Proof.
  unfold pop_prefixed. destruct (startswith k p) eqn:E.
  - apply map_lookup_filter_None. right. intros v _. simpl. congruence.
  - destruct (d !! k) as [v|] eqn:Ek.
    + by apply map_lookup_filter_Some.
    + apply map_lookup_filter_None. by left.
Qed.

Lemma childless_spec (d : rev_dict) p :
  childless d p = true ↔
  ∀ k v l, d !! k = Some v → ancestors k = Some l → p ∉ l.
Proof.
  unfold childless. rewrite forallb_forall. split.
  - intros H k v l Hk Hl. specialize (H k).
    rewrite Hl in H. apply negb_true_iff, bool_decide_eq_false in H; [done|].
    apply list_elem_of_In, list_elem_of_fmap. exists (k, v). split; [done|].
    by apply elem_of_map_to_list.
  - intros H k Hin. apply list_elem_of_In, list_elem_of_fmap in Hin as ([k' v] & -> & Hkv).
    apply elem_of_map_to_list in Hkv. simpl.
    destruct (ancestors k') as [l|] eqn:E; [|done].
    apply negb_true_iff, bool_decide_eq_false. by eapply H.
Qed.

Lemma materialized_empty : materialized ∅.
Proof. intros k v H. by rewrite lookup_empty in H. Qed.

(** Clearing a revision never breaks the invariant: a removed ancestor
    takes the paths beneath it along. *)
Lemma materialized_pop_prefixed (d : rev_dict) p :
  materialized d → materialized (pop_prefixed p d).
Proof.
  intros Hd k v Hk. rewrite lookup_pop_prefixed in Hk.
  destruct (startswith k p) eqn:Ekp; [done|].
  destruct (Hd k v Hk) as (l & Hl & Hf). exists l. split; [done|].
  intros a Ha. rewrite lookup_pop_prefixed.
  destruct (startswith a p) eqn:Eap; [|by apply Hf].
  pose proof (ancestors_startswith _ _ _ Hl Ha) as Hka.
  rewrite (startswith_trans _ _ _ Hka Eap) in Ekp. done.
Qed.

(** Storing a revision keeps the invariant when the revision is
    ["folder"] or nothing is indexed beneath the path. *)
Lemma materialized_store (d : rev_dict) p r l :
  materialized d →
  ancestors p = Some l →
  r = "folder" ∨ childless d p = true →
  materialized (mark_folders l (<[p := r]> d)).
Proof.
  intros Hd Hl Hr k v Hk. rewrite lookup_mark_folders in Hk.
  destruct (decide (k ∈ l)) as [Hkl|Hkl].
  - destruct (ancestors_of_ancestor _ _ _ Hl Hkl) as (l' & Hl' & Hsub).
    exists l'. split; [done|]. intros a Ha.
    rewrite lookup_mark_folders, decide_True; [done|by apply Hsub].
  - destruct (decide (k = p)) as [->|Hkp].
    + exists l. split; [done|]. intros a Ha.
      by rewrite lookup_mark_folders, decide_True.
    + rewrite lookup_insert_ne in Hk by done.
      destruct (Hd k v Hk) as (lk & Hlk & Hf). exists lk. split; [done|].
      intros a Ha. rewrite lookup_mark_folders.
      destruct (decide (a ∈ l)); [done|].
      destruct (decide (a = p)) as [->|Hap].
      * rewrite lookup_insert_eq. destruct Hr as [->|Hc]; [done|].
        exfalso. by eapply (proj1 (childless_spec d p) Hc k v lk).
      * rewrite lookup_insert_ne by done. by apply Hf.
Qed.

Lemma materialized_step o (d d' : rev_dict) :
  materialized d → respects o d = true → step o d = Some d' →
  materialized d'.
Proof.
  intros Hd Hr Hs. destruct o as [p [r|]|]; simpl in *.
  - destruct (decide (d !! lower p = Some r)) as [E|E].
    + rewrite set_local_rev_same in Hs by done. by injection Hs as <-.
    + destruct (set_local_rev_store _ _ _ _ E Hs) as (l & Hl & ->).
      apply materialized_store; [done|done|].
      apply orb_true_iff in Hr as [Hr|Hr]; [left|by right].
      by apply bool_decide_eq_true in Hr.
  - destruct (d !! lower p) as [v|] eqn:E.
    + rewrite (set_local_rev_clear _ _ v) in Hs by done. injection Hs as <-.
      by apply materialized_pop_prefixed.
    + rewrite set_local_rev_same in Hs by done. by injection Hs as <-.
  - injection Hs as <-. apply materialized_empty.
Qed.

Lemma materialized_run ops (d d' : rev_dict) :
  materialized d → respects_all ops d = true → run ops d = Some d' →
  materialized d'.
Proof.
  revert d; induction ops as [|o ops IH]; intros d Hd Hr Hrun; simpl in *.
  - by injection Hrun as <-.
  - apply andb_true_iff in Hr as [Ho Hr].
    destruct (step o d) as [d1|] eqn:E; [|done].
    eapply IH; [|done|done]. by eapply materialized_step.
Qed.

End rev_index_invariant.

Section rev_index_claims.
Import Path RevIndex.
Context {str_lower : Lower}.

(** C7 (as amended): starting from the empty index, after every sequence of
    [set_local_rev] and [clear_rev_index] calls that return and that never
    store a revision other than ["folder"] at a path with indexed paths
    beneath it, every strict ancestor (the root excluded) of an indexed path
    maps to ["folder"]; and a further call that stores a revision differing
    from the recorded one leaves the revision at the path and ["folder"] at
    every strict ancestor. *)
Theorem rev_index_materialized ops (d : rev_dict) :
  run ops ∅ = Some d →
  respects_all ops ∅ = true →
  materialized d ∧
  ∀ p r d', d !! lower p ≠ Some r →
    set_local_rev d p (Some r) = Some d' →
    ∃ l, ancestors (lower p) = Some l ∧
         d' !! lower p = Some r ∧
         ∀ a, a ∈ l → d' !! a = Some "folder".
Proof.
  intros Hrun Hok. split.
  - eapply materialized_run; [apply materialized_empty|done|done].
  - intros p r d' Hne Hset.
    destruct (set_local_rev_store _ _ _ _ Hne Hset) as (l & Hl & ->).
    exists l. split; [done|]. split.
    + rewrite lookup_mark_folders, decide_False by (by apply ancestors_strict).
      apply lookup_insert_eq.
    + intros a Ha. by rewrite lookup_mark_folders, decide_True.
Qed.

(** What clearing does in general: it drops every key that starts with the
    lower-cased path as a string, and nothing else. *)
Lemma set_local_rev_clear_lookup (d : rev_dict) p v :
  d !! lower p = Some v →
  ∃ d', set_local_rev d p None = Some d' ∧
        ∀ k, d' !! k = if startswith k (lower p) then None else d !! k.
Proof.
  intros H. eexists. split; [by eapply set_local_rev_clear|].
  intros k. apply lookup_pop_prefixed.
Qed.

End rev_index_claims.

Section rev_index_examples.
Import Path RevIndex.

(** Storing a file revision over a folder that still has indexed children
    leaves the children beneath a path that is no longer a folder. *)
Lemma file_rev_over_folder_breaks_invariant :
  ¬ (∀ ops (d : rev_dict), run ops ∅ = Some d → materialized d).
Proof.
  intros H.
  destruct (H [SetLocalRev "/a/b" (Some "r1"); SetLocalRev "/a" (Some "r2")]
              _ eq_refl "/a/b" "r1" eq_refl) as (l & Hl & Hf).
  vm_compute in Hl. injection Hl as <-.
  specialize (Hf "/a" (list_elem_of_here _ _)).
  vm_compute in Hf. discriminate.
Qed.

Lemma rev_index_materialized_witness :
  materialized
    (<["/d" := "folder"]> (<["/d/e.txt" := "r3"]>
      (<["/a" := "folder"]> (<["/a/x" := "folder"]> ∅)))).
Proof.
  refine (proj1 (rev_index_materialized
    [SetLocalRev "/A/b/c.txt" (Some "r1"); SetLocalRev "/a/x" (Some "folder");
     SetLocalRev "/a/b" None; SetLocalRev "/d/e.txt" (Some "r3")] _ _ _));
    vm_compute; reflexivity.
Defined.

(** C4: clearing the revision of the folder [/foo] also removes the entry
    of the sibling [/foobar], which has no ancestor but the root. *)
Theorem clear_folder_removes_sibling :
  let d : rev_dict :=
    <["/foobar" := "r2"]> (<["/foo/a" := "r1"]> (<["/foo" := "folder"]> ∅)) in
  d !! "/foo" = Some "folder" ∧
  ancestors "/foobar" = Some [] ∧
  d !! "/foobar" = Some "r2" ∧
  ∃ d', set_local_rev d "/foo" None = Some d' ∧ d' !! "/foobar" = None.
Proof.
  repeat split; try reflexivity.
  eexists. split; [reflexivity|]. vm_compute. reflexivity.
Qed.

End rev_index_examples.

Section rev_index_returns.
Import Path RevIndex.
Context {str_lower : Lower}.

(** [str.lower] keeps an absolute path absolute, and a relative one
    relative: it maps a separator to itself and nothing else to one. *)
Hypothesis lower_rooted : ∀ s, rooted (lower s) = rooted s.

(** From an absolute path the parent loop reaches the root. *)
Lemma rooted_chain x : rooted x = true → ∃ l, chain x l.
Proof.
  remember (String.length x) as n eqn:Hn. revert x Hn.
  induction n as [n IH] using lt_wf_ind. intros x -> Hx.
  destruct (decide (x = "/")) as [->|Hne]; [eexists; constructor|].
  destruct (dirname_rooted x Hx Hne) as [Hd Hlt].
  destruct (IH _ Hlt _ eq_refl Hd) as [l Hl].
  exists (x :: l). by constructor.
Qed.

Lemma rooted_ancestors p : rooted p = true → is_Some (ancestors p).
Proof.
  intros Hp. destruct (decide (p = "/")) as [->|Hne]; [by eexists|].
  destruct (dirname_rooted p Hp Hne) as [Hd _].
  destruct (rooted_chain _ Hd) as [l Hl]. exists l. by apply ancestors_chain.
Qed.

(** [set_local_rev] returns on every absolute path. *)
Lemma set_local_rev_returns (d : rev_dict) p rev :
  rooted p = true → is_Some (set_local_rev d p rev).
Proof.
  intros Hp. unfold set_local_rev.
  destruct (decide (rev = d !! lower p)); [by eexists|].
  destruct rev as [r|]; [|by eexists].
  rewrite set_parents_mark. fold (ancestors (lower p)).
  rewrite <- lower_rooted in Hp.
  destruct (rooted_ancestors _ Hp) as [l ->]. by eexists.
Qed.

(** After [set_local_rev] has stored a revision, [get_local_rev] finds it. *)
Lemma set_local_rev_records (d d' : rev_dict) p r :
  set_local_rev d p (Some r) = Some d' → get_local_rev d' p = Some r.
Proof.
  intros H. unfold get_local_rev.
  destruct (decide (d !! lower p = Some r)) as [E|E].
  - rewrite set_local_rev_same in H by done. by injection H as <-.
  - destruct (set_local_rev_store _ _ _ _ E H) as (l & Hl & ->).
    rewrite lookup_mark_folders, decide_False by (by apply ancestors_strict).
    apply lookup_insert_eq.
Qed.

End rev_index_returns.

(** ** The conflict detector *)

Section detector_claims.
Import Path RevIndex Detector.
Context {str_lower : Lower}.

(** [str.lower] keeps an absolute path absolute, and a relative one
    relative: it maps a separator to itself and nothing else to one. *)
Hypothesis lower_rooted : ∀ s, rooted (lower s) = rooted s.

Variable to_local_path : string → string.
Variable get_ctime : string → Q.
Variable get_local_hash : string → option string.

Abbreviation check :=
  (check_download_conflict to_local_path get_ctime get_local_hash).

Lemma py_max_spec a b :
  (a <= py_max a b)%Q ∧ (b <= py_max a b)%Q ∧ (py_max a b = a ∨ py_max a b = b).
Proof.
  unfold py_max. destruct (Qle_bool b a) eqn:E.
  - apply Qle_bool_iff in E. split; [apply Qle_refl|]. split; [done|by left].
  - assert (¬ (b <= a)%Q) as Hn by (rewrite <- Qle_bool_iff; congruence).
    apply Qnot_le_lt, Qlt_le_weak in Hn.
    split; [done|]. split; [apply Qle_refl|by right].
Qed.

(** C10: [get_last_sync_for_path p] is the larger of the time stamp stored
    for the lower-cased [p] (0.0 when none is stored) and the global
    [last_sync]; it is one of the two and not smaller than either, so the
    value that conflict detection compares against is never smaller than
    [last_sync]. *)
Theorem get_last_sync_for_path_max (s : state) p :
  let stored := default 0%Q (last_sync_for_path s !! lower p) in
  let r := get_last_sync_for_path s p in
  (r = stored ∨ r = last_sync s) ∧
  (stored <= r)%Q ∧ (last_sync s <= r)%Q.
Proof.
  simpl. unfold get_last_sync_for_path.
  destruct (py_max_spec (default 0%Q (last_sync_for_path s !! lower p))
              (last_sync s)) as (H1 & H2 & H3).
  done.
Qed.

(** The comparison in [check_download_conflict] is made against
    [get_last_sync_for_path], hence a local item whose ctime is not later
    than the global [last_sync] is never newer than the remote one. *)
Lemma remote_newer_since_last_sync (s : state) md :
  remote_rev md ≠ get_local_rev (rev_dict_cache s) (path_lower md) →
  (get_ctime (to_local_path (path_display md)) <= last_sync s)%Q →
  check s md = Some (Conflict.RemoteNewer, s).
Proof.
  intros Hrev Hc. unfold check_download_conflict.
  rewrite decide_False by done.
  destruct (py_max_spec
              (default 0%Q (last_sync_for_path s !! lower (path_lower md)))
              (last_sync s)) as (_ & Hle & _).
  rewrite (proj2 (Qle_bool_iff _ _)); [done|]. by eapply Qle_trans.
Qed.

Lemma check_download_conflict_cases (s : state) md :
  wf_metadata md →
  let local_rev := get_local_rev (rev_dict_cache s) (path_lower md) in
  let ctime := get_ctime (to_local_path (path_display md)) in
  let local_hash := get_local_hash (to_local_path (path_display md)) in
  let synced := get_last_sync_for_path s (path_lower md) in
  (remote_rev md = local_rev →
     check s md = Some (Conflict.LocalNewerOrIdentical, s)) ∧
  (remote_rev md ≠ local_rev → (ctime <= synced)%Q →
     check s md = Some (Conflict.RemoteNewer, s)) ∧
  (remote_rev md ≠ local_rev → ¬ (ctime <= synced)%Q → is_deleted md →
     check s md = Some (Conflict.LocalNewerOrIdentical, s)) ∧
  (remote_rev md ≠ local_rev → ¬ (ctime <= synced)%Q → ¬ is_deleted md →
   local_hash = remote_hash md →
     ∃ d, check s md =
            Some (Conflict.Identical,
                  State d (last_sync_for_path s) (last_sync s)) ∧
          get_local_rev d (path_lower md) = remote_rev md) ∧
  (remote_rev md ≠ local_rev → ¬ (ctime <= synced)%Q → ¬ is_deleted md →
   local_hash ≠ remote_hash md →
     check s md = Some (Conflict.Conflict, s)).
Proof.
  intros [Hroot Hrev]. simpl. unfold check_download_conflict.
  repeat split.
  - intros E. by rewrite decide_True.
  - intros E Hc. rewrite decide_False by done.
    by rewrite (proj2 (Qle_bool_iff _ _) Hc).
  - intros E Hc Hdel. rewrite decide_False by done.
    destruct (Qle_bool _ _) eqn:Eq; [by apply Qle_bool_iff in Eq|].
    by destruct md.
  - intros E Hc Hdel Hh. rewrite decide_False by done.
    destruct (Qle_bool _ _) eqn:Eq; [by apply Qle_bool_iff in Eq|].
    assert (∃ r, remote_rev md = Some r ∧ r ≠ "") as (r & Hr & Hne).
    { destruct md; simpl in *; [eauto|by eexists|done]. }
    rewrite Hr. simpl. rewrite bool_decide_eq_false_2 by done. simpl.
    rewrite decide_True by done.
    destruct (set_local_rev_returns lower_rooted (rev_dict_cache s)
                (path_lower md) (Some r) Hroot) as [d Hd].
    exists d. rewrite Hd. simpl. split; [done|].
    by eapply set_local_rev_records.
  - intros E Hc Hdel Hh. rewrite decide_False by done.
    destruct (Qle_bool _ _) eqn:Eq; [by apply Qle_bool_iff in Eq|].
    assert (∃ r, remote_rev md = Some r ∧ r ≠ "") as (r & Hr & Hne).
    { destruct md; simpl in *; [eauto|by eexists|done]. }
    rewrite Hr. simpl. rewrite bool_decide_eq_false_2 by done. simpl.
    rewrite <- Hr. rewrite decide_False; [done|congruence].
Qed.

(** C5: the detector applies its rules in the stated order: equal
    revisions give [LocalNewerOrIdentical]; otherwise a local ctime not
    later than [get_last_sync_for_path] gives [RemoteNewer]; otherwise a
    deletion gives [LocalNewerOrIdentical]; otherwise equal content hashes
    give [Identical] and the remote revision is recorded in the index;
    otherwise the verdict is [Conflict]. *)
Theorem check_download_conflict_rules (s : state) md :
  wf_metadata md →
  let local_rev := get_local_rev (rev_dict_cache s) (path_lower md) in
  let ctime := get_ctime (to_local_path (path_display md)) in
  let local_hash := get_local_hash (to_local_path (path_display md)) in
  let synced := get_last_sync_for_path s (path_lower md) in
  (remote_rev md = local_rev →
     check s md = Some (Conflict.LocalNewerOrIdentical, s)) ∧
  (remote_rev md ≠ local_rev → (ctime <= synced)%Q →
     check s md = Some (Conflict.RemoteNewer, s)) ∧
  (remote_rev md ≠ local_rev → ¬ (ctime <= synced)%Q → is_deleted md →
     check s md = Some (Conflict.LocalNewerOrIdentical, s)) ∧
  (remote_rev md ≠ local_rev → ¬ (ctime <= synced)%Q → ¬ is_deleted md →
   local_hash = remote_hash md →
     ∃ d, check s md =
            Some (Conflict.Identical,
                  State d (last_sync_for_path s) (last_sync s)) ∧
          get_local_rev d (path_lower md) = remote_rev md) ∧
  (remote_rev md ≠ local_rev → ¬ (ctime <= synced)%Q → ¬ is_deleted md →
   local_hash ≠ remote_hash md →
     check s md = Some (Conflict.Conflict, s)).
Proof. exact (check_download_conflict_cases s md). Qed.

Local Ltac solve_member :=
  simpl; repeat first [apply list_elem_of_here | apply list_elem_of_further].

(** The detector returns on every entry the SDK can deliver, with one of
    the values of the enumeration. *)
Lemma check_download_conflict_total (s : state) md :
  wf_metadata md →
  ∃ v s', check s md = Some (v, s') ∧ v ∈ Conflict.members.*2.
Proof.
  intros Hwf.
  destruct (check_download_conflict_cases s md Hwf) as (H1 & H2 & H3 & H4 & H5).
  destruct (decide (remote_rev md = get_local_rev (rev_dict_cache s) (path_lower md)))
    as [E|E].
  { eexists _, _. split; [by apply H1|]. solve_member. }
  destruct (Qlt_le_dec (get_last_sync_for_path s (path_lower md))
              (get_ctime (to_local_path (path_display md)))) as [Hlt%Qlt_not_le|Hle].
  2:{ eexists _, _. split; [by apply H2|]. solve_member. }
  assert (Decision (is_deleted md)) as [Hd|Hd]
    by (destruct md; simpl; apply _).
  { eexists _, _. split; [by apply H3|]. solve_member. }
  destruct (decide (get_local_hash (to_local_path (path_display md)) = remote_hash md))
    as [Hh|Hh].
  - destruct (H4 E Hlt Hd Hh) as (d & Hc & _).
    eexists _, _. split; [exact Hc|]. solve_member.
  - eexists _, _. split; [by apply H5|]. solve_member.
Qed.

End detector_claims.

(** C3: the class body binds [LocalNewerOrIdentical] to the value of
    [Identical]: the four names denote three verdicts. *)
Theorem conflict_verdicts_not_distinct :
  Conflict.LocalNewerOrIdentical = Conflict.Identical ∧
  ¬ NoDup (Conflict.members.*2).
Proof.
  split; [reflexivity|].
  intros H. simpl in H.
  apply NoDup_cons in H as [_ H]. apply NoDup_cons in H as [_ H].
  apply NoDup_cons in H as [H _]. apply H. by left.
Qed.

Lemma check_download_conflict_rules_witness :
  let s := Detector.State (<["/a/b.txt" := "0123456789"]> ∅) ∅ 5%Q in
  let md := FileMetadata "/A/b.txt" "/a/b.txt" "abcdef0123" "h1" in
  ∃ d, Detector.check_download_conflict (λ p, p) (λ _, 9%Q) (λ _, Some "h1") s md
       = Some (Conflict.Identical, Detector.State d ∅ 5%Q) ∧
       RevIndex.get_local_rev d "/a/b.txt" = Some "abcdef0123".
Proof.
  simpl.
  refine (proj1 (proj2 (proj2 (proj2 (check_download_conflict_rules
    ascii_lower_rooted (λ p, p) (λ _, 9%Q) (λ _, Some "h1")
    (Detector.State (<["/a/b.txt" := "0123456789"]> ∅) ∅ 5%Q)
    (FileMetadata "/A/b.txt" "/a/b.txt" "abcdef0123" "h1") _)))) _ _ _ _).
  - split; [reflexivity|discriminate].
  - vm_compute. discriminate.
  - vm_compute. intros H. by apply H.
  - simpl. tauto.
  - reflexivity.
Defined.

(** ** The event normalizer *)

Section normalizer_claims.
Import Normalizer.

Variable _should_split_excluded : event → bool.
Variable set_order : list string → list string.

(** Iterating over a set yields each of its elements once, in some order. *)
Hypothesis set_order_perm : ∀ l, set_order l ≡ₚ l.

Abbreviation clean := (_clean_local_events _should_split_excluded set_order).
Abbreviation norm := (normalize _should_split_excluded set_order).

Lemma set_order_singleton x : set_order [x] = [x].
Proof. apply Permutation_singleton_r, set_order_perm. Qed.

(** The events of a single path, none of them a move, form one history. *)
Lemma clean_single_path p h :
  split_moved _should_split_excluded h = h →
  remove_dups (src_path <$> h) = [p] →
  filter (λ e, src_path e = p) h = h →
  clean h = reduce_history h.
Proof.
  intros Hs Hp Hf. unfold _clean_local_events.
  rewrite Hs, Hp, set_order_singleton. simpl. rewrite Hf.
  apply app_nil_r.
Qed.

Lemma clean_created_modified :
  clean [FileCreatedEvent "/db/a"; FileModifiedEvent "/db/a"] =
  [FileCreatedEvent "/db/a"; FileModifiedEvent "/db/a"].
Proof. by rewrite (clean_single_path "/db/a"). Qed.

Lemma clean_kind_change :
  clean [DirDeletedEvent "/db/a"; FileCreatedEvent "/db/a"; FileCreatedEvent "/db/a"] =
  [FileCreatedEvent "/db/a"; DirDeletedEvent "/db/a"; FileCreatedEvent "/db/a"].
Proof. by rewrite (clean_single_path "/db/a"). Qed.

Lemma clean_created_deleted_created :
  clean [FileCreatedEvent "/db/a"; DirDeletedEvent "/db/a"; FileCreatedEvent "/db/a"] =
  [FileCreatedEvent "/db/a"].
Proof. by rewrite (clean_single_path "/db/a"). Qed.

(** C2: a file that is created and then modified within one burst leaves
    two events for its path, neither of them a deletion; and a history with
    two creations and one deletion leaves two [Created] events for its
    path. *)
Theorem clean_local_events_repeats_path :
  clean [FileCreatedEvent "/db/a"; FileModifiedEvent "/db/a"] =
    [FileCreatedEvent "/db/a"; FileModifiedEvent "/db/a"] ∧
  clean [DirDeletedEvent "/db/a"; FileCreatedEvent "/db/a"; FileCreatedEvent "/db/a"] =
    [FileCreatedEvent "/db/a"; DirDeletedEvent "/db/a"; FileCreatedEvent "/db/a"].
Proof. split; [apply clean_created_modified|apply clean_kind_change]. Qed.

(** C8: normalizing the output of the normalizer once more changes it. *)
Theorem normalize_not_idempotent :
  let X := [DirDeletedEvent "/db/a"; FileCreatedEvent "/db/a";
            FileCreatedEvent "/db/a"] in
  norm X = [FileCreatedEvent "/db/a"; DirDeletedEvent "/db/a";
            FileCreatedEvent "/db/a"] ∧
  norm (norm X) = [FileCreatedEvent "/db/a"] ∧
  norm (norm X) ≠ norm X.
Proof.
  assert (norm [DirDeletedEvent "/db/a"; FileCreatedEvent "/db/a";
                FileCreatedEvent "/db/a"] =
          [FileCreatedEvent "/db/a"; DirDeletedEvent "/db/a";
           FileCreatedEvent "/db/a"]) as H1.
  { unfold normalize. by rewrite clean_kind_change. }
  assert (norm [FileCreatedEvent "/db/a"; DirDeletedEvent "/db/a";
                FileCreatedEvent "/db/a"] = [FileCreatedEvent "/db/a"]) as H2.
  { unfold normalize. by rewrite clean_created_deleted_created. }
  simpl. rewrite H1, H2. done.
Qed.

End normalizer_claims.

Lemma clean_local_events_repeats_path_witness :
  Normalizer._clean_local_events (λ _, false) (λ l, l)
    [FileCreatedEvent "/db/a"; FileModifiedEvent "/db/a"] =
    [FileCreatedEvent "/db/a"; FileModifiedEvent "/db/a"] ∧
  Normalizer._clean_local_events (λ _, false) (λ l, l)
    [DirDeletedEvent "/db/a"; FileCreatedEvent "/db/a"; FileCreatedEvent "/db/a"] =
    [FileCreatedEvent "/db/a"; DirDeletedEvent "/db/a"; FileCreatedEvent "/db/a"].
Proof.
  apply (clean_local_events_repeats_path (λ _, false) (λ l, l)).
  intros l. reflexivity.
Defined.

Lemma normalize_not_idempotent_witness :
  Normalizer.normalize (λ _, false) (λ l, l)
    (Normalizer.normalize (λ _, false) (λ l, l)
       [DirDeletedEvent "/db/a"; FileCreatedEvent "/db/a";
        FileCreatedEvent "/db/a"]) ≠
  Normalizer.normalize (λ _, false) (λ l, l)
    [DirDeletedEvent "/db/a"; FileCreatedEvent "/db/a"; FileCreatedEvent "/db/a"].
Proof.
  apply (normalize_not_idempotent (λ _, false) (λ l, l)).
  intros l. reflexivity.
Defined.

(** ** The local event handler *)

Section handler_claims.
Import Path Handler.
Context {str_lower : Lower}.

Variable IS_FS_CASE_SENSITIVE : bool.
Variable rename_on_case_conflict : list string → event → list string * event.

(** C9: an event whose lower-cased [src_path] equals a path of
    [queue_downloading] or lies beneath one (the paths of the queue are
    lower-cased for the comparison as well) is dropped: the handler leaves
    the event queue, and all the rest of its state, as it was. *)
Theorem on_any_event_drops_downloading (h : state) (e : event) p :
  p ∈ queue_downloading h →
  lower (src_path e) = lower p ∨
    is_child (lower (src_path e)) (lower p) = true →
  on_any_event IS_FS_CASE_SENSITIVE rename_on_case_conflict h e = h
  ∧ local_file_event_queue
      (on_any_event IS_FS_CASE_SENSITIVE rename_on_case_conflict h e)
    = local_file_event_queue h.
Proof.
  intros Hp Hm.
  assert (on_any_event IS_FS_CASE_SENSITIVE rename_on_case_conflict h e = h)
    as ->; [|done].
  unfold on_any_event.
  destruct (negb (syncing h || startup h)); [done|].
  assert (is_being_downloaded h (src_path e) = true) as ->; [|done].
  unfold is_being_downloaded. apply existsb_exists. exists p. split.
  - by apply list_elem_of_In.
  - destruct Hm as [->| ->]; [|apply orb_true_r].
    by rewrite bool_decide_eq_true_2.
Qed.

End handler_claims.

Lemma on_any_event_drops_downloading_witness :
  let h := Handler.State true false [] ["/home/u/Dropbox/Docs"] [] in
  Handler.on_any_event true (λ c e, (c, e)) h
    (FileModifiedEvent "/home/u/Dropbox/docs/Report.txt") = h
  ∧ Handler.local_file_event_queue
      (Handler.on_any_event true (λ c e, (c, e)) h
         (FileModifiedEvent "/home/u/Dropbox/docs/Report.txt")) = [].
Proof.
  apply (on_any_event_drops_downloading true (λ c e, (c, e))
           (Handler.State true false [] ["/home/u/Dropbox/Docs"] [])
           (FileModifiedEvent "/home/u/Dropbox/docs/Report.txt")
           "/home/u/Dropbox/Docs").
  - apply list_elem_of_here.
  - right. reflexivity.
Defined.

(** ** Download and upload batches *)

Section batch_claims.
Import Batch.
Context {str_lower : Path.Lower}.

Variable World : Type.
Variable EXCLUDED_FILE_NAMES : list string.
Variable to_local_path : World → string → string.
Variable _create_local_entry_body :
  Metadata → sync World → outcome (option Metadata) * sync World.

(** Nothing that [_create_local_entry] calls assigns [last_cursor]. *)
Hypothesis body_keeps_cursor :
  ∀ md s, last_cursor (_create_local_entry_body md s).2 = last_cursor s.

Abbreviation create :=
  (_create_local_entry World to_local_path _create_local_entry_body).
Abbreviation apply_remote :=
  (apply_remote_changes World EXCLUDED_FILE_NAMES to_local_path
     _create_local_entry_body).

Lemma create_keeps_cursor md s : last_cursor (create md s).2 = last_cursor s.
Proof.
  unfold _create_local_entry, catch_sync_issues.
  pose proof (body_keeps_cursor md s) as H.
  destruct (_create_local_entry_body md s) as [[[v|]|exc|exc] s']; simpl in *;
    try done.
  destruct (exc_dbx_path exc); done.
Qed.

Lemma for_each_keeps_cursor items s :
  last_cursor (for_each World create items s).2 = last_cursor s.
Proof.
  revert s; induction items as [|x items IH]; intros s; simpl; [done|].
  pose proof (create_keeps_cursor x s) as Hx.
  destruct (create x s) as [[r|exc] s1]; simpl in *; [|done].
  specialize (IH s1).
  destruct (for_each World create items s1) as [[rs|exc] s2]; simpl in *;
    congruence.
Qed.

Lemma in_pool_keeps_cursor items s :
  last_cursor (in_pool World create items s).2 = last_cursor s.
Proof.
  revert s; induction items as [|x items IH]; intros s; simpl; [done|].
  pose proof (create_keeps_cursor x s) as Hx.
  destruct (create x s) as [r s1]; simpl in *.
  specialize (IH s1).
  destruct (in_pool World create items s1) as [rs s2]; simpl in *.
  destruct r, rs; simpl; congruence.
Qed.

Lemma excluded_update_keeps_cursor (deleted_excluded : list Metadata)
    (s : sync World) :
  last_cursor
    (foldl (λ s d,
       set_excluded_items
         (clean_excluded_items_list
            (filter (λ f, Path.startswith f (path_lower d) = false)
               (excluded_items s))) s) s deleted_excluded)
  = last_cursor s.
Proof.
  revert s; induction deleted_excluded as [|d l IH]; intros s; simpl; [done|].
  by rewrite IH.
Qed.

Lemma apply_remote_changes_cursor_cases changes save_cursor s :
  match apply_remote changes save_cursor s with
  | (Completed (Some _), s') =>
      ∃ ch, changes = Some ch ∧
            last_cursor s' = if save_cursor then cursor ch else last_cursor s
  | (Completed None, s') => changes = None ∧ s' = s
  | (Aborted _, s') => last_cursor s' = last_cursor s
  end.
Proof.
  unfold apply_remote_changes. destruct changes as [ch|]; [|done].
  destruct (filter_excluded_changes_remote World EXCLUDED_FILE_NAMES s ch)
    as [inc exc].
  set (s1 := foldl _ _ _).
  assert (last_cursor s1 = last_cursor s) as H1.
  { unfold s1. by rewrite excluded_update_keeps_cursor. }
  clearbody s1.
  match goal with |- context [for_each World create ?l s1] =>
    pose proof (for_each_keeps_cursor l s1) as H2;
    destruct (for_each World create l s1) as [[d1|e1] s2] end;
    simpl in H2; [|congruence].
  match goal with |- context [for_each World create ?l s2] =>
    pose proof (for_each_keeps_cursor l s2) as H3;
    destruct (for_each World create l s2) as [[d2|e2] s3] end;
    simpl in H3; [|congruence].
  match goal with |- context [in_pool World create ?l s3] =>
    pose proof (in_pool_keeps_cursor l s3) as H4;
    destruct (in_pool World create l s3) as [[d3|e3] s4] end;
    simpl in H4; [|congruence].
  exists ch. split; [done|]. destruct save_cursor; simpl; congruence.
Qed.

(** X29: [apply_remote_changes] assigns [last_cursor] at its very end
    only: [last_cursor] keeps its previous value when an exception other
    than a sync error cuts the batch short, when [save_cursor] is not set,
    and when no list of changes is given (the state is then untouched); a
    call that runs to its end with [save_cursor] set leaves [last_cursor] at
    the cursor of the list, whatever the success flag it returns. *)
Theorem apply_remote_changes_cursor changes save_cursor s :
  match apply_remote_changes World EXCLUDED_FILE_NAMES to_local_path
          _create_local_entry_body changes save_cursor s with
  | (Completed (Some _), s') =>
      ∃ ch, changes = Some ch ∧
            last_cursor s' = if save_cursor then cursor ch else last_cursor s
  | (Completed None, s') => changes = None ∧ s' = s
  | (Aborted _, s') => last_cursor s' = last_cursor s
  end.
Proof. apply apply_remote_changes_cursor_cases. Qed.

End batch_claims.

Import Scenario.

(** C1: a batch whose only entry fails with a sync error returns the
    success flag [False], and yet [last_cursor] moves from the cursor it
    held to the cursor of the batch: the assignment is guarded by
    [save_cursor] alone, not by [success]. *)
Theorem failed_batch_advances_cursor :
  ∃ s', Batch.apply_remote_changes () [] (λ _ p, p) failing_download
          (Some one_file) true at_cursor1
        = (Batch.Completed (Some ([], false)), s')
        ∧ Batch.last_cursor at_cursor1 = "cursor1"
        ∧ Batch.cursor one_file = "cursor2"
        ∧ Batch.last_cursor s' = "cursor2"
        ∧ Batch.download_errors s' = {["/a.txt"]}.
Proof. eexists. split; [vm_compute; reflexivity|]. repeat split. Qed.

Lemma apply_remote_changes_cursor_witness :
  match Batch.apply_remote_changes () [] (λ _ p, p) failing_download
          (Some one_file) true at_cursor1 with
  | (Batch.Completed (Some _), s') =>
      ∃ ch, Some one_file = Some ch ∧
            Batch.last_cursor s' = if true then Batch.cursor ch
                                   else Batch.last_cursor at_cursor1
  | (Batch.Completed None, s') => Some one_file = None ∧ s' = at_cursor1
  | (Batch.Aborted _, s') => Batch.last_cursor s' = Batch.last_cursor at_cursor1
  end.
Proof.
  apply (apply_remote_changes_cursor unit [] (λ _ p, p) failing_download).
  intros md s. reflexivity.
Defined.

(** C6: the deletion of a folder fails with a sync error, which
    [_apply_event] records, and [last_sync] moves to [local_cursor] all the
    same: the results of deleted and directory events are not collected. *)
Theorem failed_deletion_advances_last_sync :
  ∃ s', Batch.apply_local_changes () [] (λ _ p, p) (λ _, Some "/old")
          (λ _, true) (λ _ _ _, false) (λ _ _, None)
          (failing_upload "/old") [DirDeletedEvent "/home/u/Dropbox/old"]
          100 at_cursor1
        = (Batch.Completed (), s')
        ∧ Batch.last_sync at_cursor1 = 50%Q
        ∧ Batch.last_sync s' = 100%Q
        ∧ Batch.sync_errors s' = [Batch.MkSyncError (Some "/old") (Some "/old")].
Proof. eexists. split; [vm_compute; reflexivity|]. repeat split. Qed.

(** A failed upload of a file, by contrast, holds [last_sync] back. *)
Example failed_upload_keeps_last_sync :
  ∃ s', Batch.apply_local_changes () [] (λ _ p, p) (λ _, Some "/new.txt")
          (λ _, true) (λ _ _ _, false) (λ _ _, None)
          (failing_upload "/new.txt") [FileCreatedEvent "/home/u/Dropbox/new.txt"]
          100 at_cursor1
        = (Batch.Completed (), s')
        ∧ Batch.last_sync s' = 50%Q.
Proof. eexists. split; [vm_compute; reflexivity|]. reflexivity. Qed.

(* ================================================================== *)
(** * Further properties of the code *)
(* ================================================================== *)

(** ** The revision index: shape, round trips, frames *)

Section index_shape.
Import Path RevIndex IndexShape.
Context {str_lower : Lower}.

(** A run of the parent loop that ends started on an absolute path. *)
Lemma chain_absolute x l : chain x l → startswith x "/" = true.
Proof.
  induction 1 as [|x l Hx H IH]; [done|].
  eapply startswith_trans; [apply startswith_dirname|done].
Qed.

Lemma ancestors_absolute p l : ancestors p = Some l → startswith p "/" = true.
Proof.
  intros H%ancestors_chain%chain_absolute.
  eapply startswith_trans; [apply startswith_dirname|done].
Qed.

Lemma ancestors_indexed_store (d : rev_dict) p r l :
  ancestors_indexed d → ancestors p = Some l →
  ancestors_indexed (mark_folders l (<[p := r]> d)).
Proof.
  intros Hd Hl k v Hk. rewrite lookup_mark_folders in Hk.
  assert (∀ a, a ∈ l → is_Some (mark_folders l (<[p := r]> d) !! a)) as Hin.
  { intros a Ha. rewrite lookup_mark_folders, decide_True by done. by eexists. }
  destruct (decide (k ∈ l)) as [Hkl|Hkl].
  - destruct (ancestors_of_ancestor _ _ _ Hl Hkl) as (l' & Hl' & Hsub).
    exists l'. split; [done|]. intros a Ha. by apply Hin, Hsub.
  - destruct (decide (k = p)) as [->|Hkp]; [by exists l|].
    rewrite lookup_insert_ne in Hk by done.
    destruct (Hd k v Hk) as (lk & Hlk & Hf). exists lk. split; [done|].
    intros a Ha. rewrite lookup_mark_folders.
    destruct (decide (a ∈ l)); [by eexists|].
    destruct (decide (a = p)) as [->|Hap].
    + rewrite lookup_insert_eq. by eexists.
    + rewrite lookup_insert_ne by done. by apply Hf.
Qed.

Lemma ancestors_indexed_pop (d : rev_dict) p :
  ancestors_indexed d → ancestors_indexed (pop_prefixed p d).
Proof.
  intros Hd k v Hk. rewrite lookup_pop_prefixed in Hk.
  destruct (startswith k p) eqn:Ekp; [done|].
  destruct (Hd k v Hk) as (l & Hl & Hf). exists l. split; [done|].
  intros a Ha. rewrite lookup_pop_prefixed.
  destruct (startswith a p) eqn:Eap; [|by apply Hf].
  pose proof (ancestors_startswith _ _ _ Hl Ha) as Hka.
  rewrite (startswith_trans _ _ _ Hka Eap) in Ekp. done.
Qed.

Lemma indexed_step o (d d' : rev_dict) :
  ancestors_indexed d → step o d = Some d' → ancestors_indexed d'.
Proof.
  intros Ha Hs. destruct o as [p [r|]|]; simpl in *.
  - destruct (decide (d !! lower p = Some r)) as [E|E].
    + rewrite set_local_rev_same in Hs by done. by injection Hs as <-.
    + destruct (set_local_rev_store _ _ _ _ E Hs) as (l & Hl & ->).
      by apply ancestors_indexed_store.
  - destruct (d !! lower p) as [v|] eqn:E.
    + rewrite (set_local_rev_clear _ _ v) in Hs by done. injection Hs as <-.
      by apply ancestors_indexed_pop.
    + rewrite set_local_rev_same in Hs by done. by injection Hs as <-.
  - injection Hs as <-. unfold clear_rev_index.
    intros k v H; by rewrite lookup_empty in H.
Qed.

Lemma indexed_run ops (d d' : rev_dict) :
  ancestors_indexed d → run ops d = Some d' → ancestors_indexed d'.
Proof.
  revert d; induction ops as [|o ops IH]; intros d Hd Hrun; simpl in *.
  - by injection Hrun as <-.
  - destruct (step o d) as [d1|] eqn:E; [|done].
    eapply IH; [|done]. by eapply indexed_step.
Qed.

(** X1: whatever the calls, an index built from the empty one by
    [set_local_rev] and [clear_rev_index] holds an entry for every strict
    ancestor (the root excluded) of each of its paths. *)
Theorem index_ancestors_indexed ops (d : rev_dict) :
  run ops ∅ = Some d → ancestors_indexed d.
Proof.
  intros H. eapply (indexed_run ops ∅); [|done].
  intros k v Hk; by rewrite lookup_empty in Hk.
Qed.

(** A string is lower-case when [str.lower] leaves it as it is, and the
    result of [str.lower] is lower-case. *)
Hypothesis lower_idem : ∀ s, lower (lower s) = lower s.

(** [str.lower] maps a separator to itself and nothing else to one, and
    what it does to a character does not depend on anything beyond the
    nearest separator: lower-casing a path and cutting it at its last
    separator commute. *)
Hypothesis lower_dirname : ∀ s, lower (dirname s) = dirname (lower s).

(** The parent loop started on a lower-case path visits lower-case paths
    only. *)
Lemma chain_lower x l : chain x l → lower x = x → ∀ a, a ∈ l → lower a = a.
Proof.
  induction 1 as [|x l Hx Hc IH]; intros Hlow a Ha;
    [by apply elem_of_nil in Ha|].
  apply elem_of_cons in Ha as [->|Ha]; [done|].
  apply IH; [|done]. by rewrite lower_dirname, Hlow.
Qed.

Lemma well_keyed_store (d : rev_dict) p r l :
  well_keyed d → lower p = p → ancestors p = Some l →
  well_keyed (mark_folders l (<[p := r]> d)).
Proof.
  intros Hd Hp Hl k v Hk. rewrite lookup_mark_folders in Hk.
  destruct (decide (k ∈ l)) as [Hkl|Hkl].
  - split.
    + apply ancestors_chain in Hl.
      eapply (chain_lower _ _ Hl); [|done]. by rewrite lower_dirname, Hp.
    + apply ancestors_chain in Hl. destruct l as [|x l]; [by apply elem_of_nil in Hkl|].
      destruct (chain_suffix _ _ _ Hl Hkl) as (l' & Hc & _).
      apply chain_absolute in Hc.
      eapply startswith_trans; [apply startswith_dirname|done].
  - destruct (decide (k = p)) as [->|Hkp].
    + split; [done|by eapply ancestors_absolute].
    + rewrite lookup_insert_ne in Hk by done. by eapply Hd.
Qed.

Lemma well_keyed_pop (d : rev_dict) p : well_keyed d → well_keyed (pop_prefixed p d).
Proof.
  intros Hd k v Hk. rewrite lookup_pop_prefixed in Hk.
  destruct (startswith k p); [done|]. by eapply Hd.
Qed.

Lemma keyed_step o (d d' : rev_dict) :
  well_keyed d → step o d = Some d' → well_keyed d'.
Proof.
  intros Hw Hs. destruct o as [p [r|]|]; simpl in *.
  - destruct (decide (d !! lower p = Some r)) as [E|E].
    + rewrite set_local_rev_same in Hs by done. by injection Hs as <-.
    + destruct (set_local_rev_store _ _ _ _ E Hs) as (l & Hl & ->).
      apply well_keyed_store; [done|apply lower_idem|done].
  - destruct (d !! lower p) as [v|] eqn:E.
    + rewrite (set_local_rev_clear _ _ v) in Hs by done. injection Hs as <-.
      by apply well_keyed_pop.
    + rewrite set_local_rev_same in Hs by done. by injection Hs as <-.
  - injection Hs as <-. unfold clear_rev_index.
    intros k v H; by rewrite lookup_empty in H.
Qed.

Lemma keyed_run ops (d d' : rev_dict) :
  well_keyed d → run ops d = Some d' → well_keyed d'.
Proof.
  revert d; induction ops as [|o ops IH]; intros d Hd Hrun; simpl in *.
  - by injection Hrun as <-.
  - destruct (step o d) as [d1|] eqn:E; [|done].
    eapply IH; [|done]. by eapply keyed_step.
Qed.

(** X2: every key of such an index is lower-case, that is, left as it is
    by [str.lower], and starts with a separator. *)
Theorem index_well_keyed ops (d : rev_dict) :
  run ops ∅ = Some d → well_keyed d.
Proof.
  intros H. eapply (keyed_run ops ∅); [|done].
  intros k v Hk; by rewrite lookup_empty in Hk.
Qed.

Lemma lookup_after_set_local_rev (d d' : rev_dict) p p' rev :
  lower p' = lower p →
  set_local_rev d p rev = Some d' →
  get_local_rev d' p' = rev.
Proof.
  intros Hp H. unfold get_local_rev. rewrite Hp.
  destruct rev as [r|]; [by eapply set_local_rev_records|].
  destruct (d !! lower p) as [v|] eqn:E.
  - rewrite (set_local_rev_clear _ _ v) in H by done. injection H as <-.
    by rewrite lookup_pop_prefixed, startswith_refl.
  - rewrite set_local_rev_same in H by done. by injection H as <-.
Qed.

(** X3: [get_local_rev] after [set_local_rev] returns what was set ([None]
    after clearing), under every spelling of the path that differs in case
    only. *)
Theorem get_after_set_local_rev (d d' : rev_dict) p p' rev :
  lower p' = lower p →
  set_local_rev d p rev = Some d' →
  get_local_rev d' p' = rev.
Proof. apply lookup_after_set_local_rev. Qed.

(** X4: [set_local_rev] is idempotent: a second call with the same
    arguments changes nothing. *)
Theorem set_local_rev_idempotent (d d' : rev_dict) p rev :
  set_local_rev d p rev = Some d' → set_local_rev d' p rev = Some d'.
Proof.
  intros H. apply set_local_rev_same.
  by apply (lookup_after_set_local_rev d d' p p rev).
Qed.

(** X5: clearing the revision of an indexed path removes the path and
    every indexed path beneath it. *)
Theorem clear_removes_descendants (d : rev_dict) p v :
  d !! lower p = Some v →
  ∃ d', set_local_rev d p None = Some d' ∧
        d' !! lower p = None ∧
        ∀ k l, ancestors k = Some l → lower p ∈ l → d' !! k = None.
Proof.
  intros H. exists (pop_prefixed (lower p) d).
  split; [by eapply set_local_rev_clear|]. split.
  - by rewrite lookup_pop_prefixed, startswith_refl.
  - intros k l Hl Hin. rewrite lookup_pop_prefixed.
    by rewrite (ancestors_startswith _ _ _ Hl Hin).
Qed.

(** X6: storing a revision touches the path and its strict ancestors
    only, and removes no entry. *)
Theorem set_local_rev_frame (d d' : rev_dict) p r :
  set_local_rev d p (Some r) = Some d' →
  (∀ k, is_Some (d !! k) → is_Some (d' !! k)) ∧
  ∀ k l, ancestors (lower p) = Some l → k ≠ lower p → k ∉ l →
         d' !! k = d !! k.
Proof.
  intros H. destruct (decide (d !! lower p = Some r)) as [E|E].
  { rewrite set_local_rev_same in H by done. by injection H as <-. }
  destruct (set_local_rev_store _ _ _ _ E H) as (l & Hl & ->). split.
  - intros k Hk. rewrite lookup_mark_folders.
    destruct (decide (k ∈ l)); [by eexists|].
    destruct (decide (k = lower p)) as [->|Hne].
    + rewrite lookup_insert_eq. by eexists.
    + by rewrite lookup_insert_ne.
  - intros k l' Hl' Hne Hnin. assert (l' = l) as -> by congruence.
    rewrite lookup_mark_folders, decide_False by done.
    by rewrite lookup_insert_ne.
Qed.

(** X7: on a path that does not start with a separator the parent loop
    never ends: a call that has a new revision to store does not return,
    whatever the fuel. *)
Theorem set_local_rev_relative_diverges (d : rev_dict) p r :
  startswith (lower p) "/" = false →
  d !! lower p ≠ Some r →
  set_local_rev d p (Some r) = None ∧
  ∀ fuel, set_parents fuel (dirname (lower p)) (<[lower p := r]> d) = None.
Proof.
  intros Hrel Hne.
  assert (∀ fuel, parents_from fuel (dirname (lower p)) = None) as Hdiv.
  { intros fuel. destruct (parents_from fuel (dirname (lower p))) as [l|] eqn:E;
      [|done].
    apply parents_from_chain, ancestors_chain, ancestors_absolute in E.
    congruence. }
  split.
  - unfold set_local_rev. rewrite decide_False by congruence.
    by rewrite set_parents_mark, Hdiv.
  - intros fuel. by rewrite set_parents_mark, Hdiv.
Qed.

End index_shape.

Lemma index_ancestors_indexed_witness :
  IndexShape.ancestors_indexed
    (<["/a" := "r2"]> (<["/a/b" := "r1"]> ∅)).
Proof.
  refine (index_ancestors_indexed
    [RevIndex.SetLocalRev "/a/b" (Some "r1");
     RevIndex.SetLocalRev "/A" (Some "r2")] _ _).
  vm_compute. reflexivity.
Defined.

Lemma index_well_keyed_witness :
  IndexShape.well_keyed
    (<["/docs" := "folder"]> (<["/docs/report.txt" := "r1"]> ∅)).
Proof.
  refine (index_well_keyed ascii_lower_idem ascii_lower_dirname
    [RevIndex.SetLocalRev "/Docs/Report.TXT" (Some "r1")] _ _).
  vm_compute. reflexivity.
Defined.

Lemma get_after_set_local_rev_witness :
  RevIndex.get_local_rev
    (<["/docs" := "folder"]> (<["/docs/report.txt" := "r1"]> ∅))
    "/DOCS/report.txt" = Some "r1".
Proof.
  apply (get_after_set_local_rev ∅ _ "/Docs/Report.TXT" "/DOCS/report.txt");
    vm_compute; reflexivity.
Defined.

Lemma set_local_rev_idempotent_witness :
  RevIndex.set_local_rev
    (<["/docs" := "folder"]> (<["/docs/report.txt" := "r1"]> ∅))
    "/Docs/Report.TXT" (Some "r1")
  = Some (<["/docs" := "folder"]> (<["/docs/report.txt" := "r1"]> ∅)).
Proof.
  apply (set_local_rev_idempotent ∅). vm_compute. reflexivity.
Defined.

Lemma clear_removes_descendants_witness :
  ∃ d', RevIndex.set_local_rev
          (<["/a" := "folder"]> (<["/a/b" := "folder"]> (<["/a/b/c" := "r"]> ∅)))
          "/A/b" None = Some d' ∧
        d' !! Path.lower "/A/b" = None ∧
        ∀ k l, RevIndex.ancestors k = Some l → Path.lower "/A/b" ∈ l →
               d' !! k = None.
Proof.
  apply (clear_removes_descendants _ "/A/b" "folder"). vm_compute. reflexivity.
Defined.

Lemma set_local_rev_frame_witness :
  let d : gmap string string := <["/x" := "rx"]> ∅ in
  (∀ k, is_Some (d !! k) →
        is_Some ((<["/a" := "folder"]> (<["/a/b" := "r1"]> d)) !! k)) ∧
  ∀ k l, RevIndex.ancestors (Path.lower "/a/b") = Some l →
         k ≠ Path.lower "/a/b" → k ∉ l →
         (<["/a" := "folder"]> (<["/a/b" := "r1"]> d)) !! k = d !! k.
Proof.
  apply (set_local_rev_frame _ _ "/a/b" "r1"). vm_compute. reflexivity.
Defined.

Lemma set_local_rev_relative_diverges_witness :
  RevIndex.set_local_rev ∅ "docs/a.txt" (Some "r1") = None ∧
  ∀ fuel, RevIndex.set_parents fuel (Path.dirname (Path.lower "docs/a.txt"))
            (<[Path.lower "docs/a.txt" := "r1"]> ∅) = None.
Proof.
  apply set_local_rev_relative_diverges; [reflexivity|].
  rewrite lookup_empty. discriminate.
Defined.

(** ** Time stamps per path, and more on the conflict detector *)

Section detector_extras.
Import Path RevIndex Detector.
Context {str_lower : Lower}.

Variable to_local_path : string → string.
Variable get_ctime : string → Q.
Variable get_local_hash : string → option string.

(** X8: [get_last_sync_for_path] after [set_last_sync_for_path] yields the
    larger of the time stamp set and [last_sync], under every spelling of
    the path that differs in case only; setting 0.0 forgets the path, so
    that the stored part counts as 0.0; other paths are not affected. *)
Theorem last_sync_for_path_round_trip (s : state) p p' t :
  lower p' = lower p →
  (¬ (t == 0)%Q →
     get_last_sync_for_path (set_last_sync_for_path s p t) p'
     = py_max t (last_sync s)) ∧
  ((t == 0)%Q →
     get_last_sync_for_path (set_last_sync_for_path s p t) p'
     = py_max 0 (last_sync s)) ∧
  ∀ q, lower q ≠ lower p →
     get_last_sync_for_path (set_last_sync_for_path s p t) q
     = get_last_sync_for_path s q.
Proof.
  intros Hp. unfold get_last_sync_for_path, set_last_sync_for_path. simpl.
  rewrite Hp. repeat split.
  - intros Ht. destruct (Qeq_bool t 0) eqn:E; [by apply Qeq_bool_iff in E|].
    by rewrite lookup_insert_eq.
  - intros Ht. rewrite (proj2 (Qeq_bool_iff _ _) Ht).
    by rewrite lookup_delete_eq.
  - intros q Hq. destruct (Qeq_bool t 0).
    + by rewrite lookup_delete_ne.
    + by rewrite lookup_insert_ne.
Qed.

(** X9: a remote deletion never yields [Conflict] and never changes the
    state; it is to be applied locally ([RemoteNewer]) exactly when the path
    is indexed and the local item has not changed since it was last
    synced. *)
Theorem deleted_entry_never_conflicts (s : state) pd pl :
  let check := check_download_conflict to_local_path get_ctime get_local_hash in
  (∃ v, check s (DeletedMetadata pd pl) = Some (v, s) ∧
        (v = Conflict.RemoteNewer ∨ v = Conflict.LocalNewerOrIdentical)) ∧
  (check s (DeletedMetadata pd pl) = Some (Conflict.RemoteNewer, s) ↔
   is_Some (get_local_rev (rev_dict_cache s) pl) ∧
   (get_ctime (to_local_path pd) <= get_last_sync_for_path s pl)%Q).
Proof.
  simpl. unfold check_download_conflict. simpl.
  destruct (get_local_rev (rev_dict_cache s) pl) as [r|] eqn:Er.
  - rewrite decide_False by done.
    destruct (Qle_bool _ _) eqn:E.
    + split; [eexists; split; [done|by left]|].
      split; [intros _; split; [by eexists|by apply Qle_bool_iff]|done].
    + split; [eexists; split; [done|by right]|].
      split; [done|]. intros [_ H%Qle_bool_iff]. congruence.
  - rewrite decide_True by done.
    split; [eexists; split; [done|by right]|].
    split; [done|]. by intros [[? ?] _].
Qed.

(** X10: the detector never touches the time stamps, and it changes the
    state in one case only: when the revisions differ, the local item has
    changed since it was last synced, the remote revision is not empty (the
    entry reports no deletion) and the content hashes agree.  Then the
    verdict is the value of [Identical] and the index is the one that
    [set_local_rev] returns for the remote revision; in every other case the
    state is left as it was. *)
Theorem check_download_conflict_frame (s s' : state) md v :
  check_download_conflict to_local_path get_ctime get_local_hash s md
    = Some (v, s') →
  let rewrites :=
    remote_rev md ≠ get_local_rev (rev_dict_cache s) (path_lower md) ∧
    ¬ (get_ctime (to_local_path (path_display md))
       <= get_last_sync_for_path s (path_lower md))%Q ∧
    truthy (remote_rev md) = true ∧
    remote_hash md = get_local_hash (to_local_path (path_display md)) in
  last_sync s' = last_sync s ∧
  last_sync_for_path s' = last_sync_for_path s ∧
  (rewrites →
     v = Conflict.Identical ∧
     set_local_rev (rev_dict_cache s) (path_lower md) (remote_rev md)
     = Some (rev_dict_cache s')) ∧
  (¬ rewrites → s' = s).
Proof.
  unfold check_download_conflict. cbv zeta.
  destruct (decide (remote_rev md
                    = get_local_rev (rev_dict_cache s) (path_lower md)))
    as [E|E].
  { intros [= <- <-]. split; [done|]. split; [done|].
    split; [by intros [? _]|done]. }
  destruct (Qle_bool _ _) eqn:Eq.
  { apply Qle_bool_iff in Eq. intros [= <- <-].
    split; [done|]. split; [done|].
    split; [by intros (_ & ? & _)|done]. }
  assert (¬ (get_ctime (to_local_path (path_display md))
             <= get_last_sync_for_path s (path_lower md))%Q) as Hq.
  { intros Hle%Qle_bool_iff. congruence. }
  destruct (truthy (remote_rev md)) eqn:Et; simpl.
  2:{ intros [= <- <-]. split; [done|]. split; [done|].
      split; [intros (_ & _ & ? & _); congruence|done]. }
  destruct (decide (remote_hash md
                    = get_local_hash (to_local_path (path_display md))))
    as [Eh|Eh].
  2:{ intros [= <- <-]. split; [done|]. split; [done|].
      split; [by intros (_ & _ & _ & ?)|done]. }
  destruct (set_local_rev _ _ _) as [d|] eqn:Ed; simpl; [|done].
  intros [= <- <-]. simpl. split; [done|]. split; [done|].
  split; [done|]. intros Hn. by destruct Hn.
Qed.

End detector_extras.

Lemma last_sync_for_path_round_trip_witness :
  let s := Detector.State ∅ ∅ 5%Q in
  Detector.get_last_sync_for_path
    (Detector.set_last_sync_for_path s "/A/b.txt" 9%Q) "/a/B.TXT" = 9%Q.
Proof.
  apply (proj1 (last_sync_for_path_round_trip (str_lower := Path.ascii_Lower)
                  (Detector.State ∅ ∅ 5%Q)
                  "/A/b.txt" "/a/B.TXT" 9%Q eq_refl)).
  intros H. vm_compute in H. discriminate.
Defined.

Lemma check_download_conflict_frame_witness :
  RevIndex.set_local_rev (<["/a/b.txt" := "0123456789"]> ∅) "/a/b.txt"
    (Some "abcdef0123")
  = Some (<["/a" := "folder"]> (<["/a/b.txt" := "abcdef0123"]> ∅)).
Proof.
  refine (proj2 (proj1 (proj2 (proj2
    (check_download_conflict_frame (λ p, p) (λ _, 9%Q) (λ _, Some "h1")
       (Detector.State (<["/a/b.txt" := "0123456789"]> ∅) ∅ 5%Q)
       (Detector.State (<["/a" := "folder"]> (<["/a/b.txt" := "abcdef0123"]> ∅))
          ∅ 5%Q)
       (FileMetadata "/A/b.txt" "/a/b.txt" "abcdef0123" "h1")
       Conflict.Identical _))) _)).
  - vm_compute. reflexivity.
  - split; [vm_compute; discriminate|].
    split; [vm_compute; intros H; by apply H|]. split; reflexivity.
Defined.

Lemma remote_newer_since_last_sync_witness :
  let s := Detector.State (<["/a/b.txt" := "0123456789"]> ∅) ∅ 5%Q in
  Detector.check_download_conflict (λ p, p) (λ _, (-1)%Q) (λ _, None) s
    (FileMetadata "/A/b.txt" "/a/b.txt" "abcdef0123" "h1")
  = Some (Conflict.RemoteNewer, s).
Proof.
  apply (remote_newer_since_last_sync (λ p, p) (λ _, (-1)%Q) (λ _, None)).
  - vm_compute. discriminate.
  - vm_compute. discriminate.
Defined.

(** ** Remote clean-up, history of recent changes, queues *)

Section remote_extras.
Import Batch Remote.

Lemma elem_of_fromkeys l x : x ∈ fromkeys l ↔ x ∈ l.
Proof.
  induction l as [|y l IH]; simpl; [done|].
  rewrite !elem_of_cons, list_elem_of_filter, IH.
  destruct (decide (x = y)) as [->|Hne]; [split; by left|].
  split; [intros [?|[_ ?]]; [done|by right]|].
  intros [?|?]; [done|by right].
Qed.

Lemma NoDup_fromkeys l : NoDup (fromkeys l).
Proof.
  induction l as [|y l IH]; simpl; [constructor|].
  apply NoDup_cons. split.
  - rewrite list_elem_of_filter. by intros [? _].
  - by apply NoDup_filter.
Qed.

Lemma filter_id_Forall {A} (P : A → Prop) `{∀ x, Decision (P x)} (l : list A) :
  Forall P l → filter P l = l.
Proof.
  induction 1 as [|x l Hx Hl IH]; [done|].
  by rewrite filter_cons_True, IH.
Qed.

Lemma filter_nil_Forall {A} (P : A → Prop) `{∀ x, Decision (P x)} (l : list A) :
  Forall (λ x, ¬ P x) l → filter P l = [].
Proof.
  induction 1 as [|x l Hx Hl IH]; [done|].
  by rewrite filter_cons_False.
Qed.

Lemma fromkeys_NoDup l : NoDup l → fromkeys l = l.
Proof.
  induction 1 as [|x l Hx Hl IH]; simpl; [done|].
  rewrite IH. f_equal. apply filter_id_Forall, Forall_forall.
  intros y Hy ->. done.
Qed.

Lemma fromkeys_snoc l p :
  fromkeys (l ++ [p]) = if decide (p ∈ l) then fromkeys l else fromkeys l ++ [p].
Proof.
  induction l as [|x l IH].
  { destruct (decide (p ∈ [])) as [H|_]; [by apply elem_of_nil in H|done]. }
  change (fromkeys ((x :: l) ++ [p]))
    with (x :: filter (λ y, y ≠ x) (fromkeys (l ++ [p]))).
  change (fromkeys (x :: l)) with (x :: filter (λ y, y ≠ x) (fromkeys l)).
  rewrite IH. destruct (decide (p = x)) as [->|Hne].
  - rewrite (decide_True (P := x ∈ x :: l)) by (by left).
    destruct (decide (x ∈ l)); [done|].
    rewrite filter_app, (filter_cons_False _ x) by (by intros ?).
    by rewrite filter_nil, app_nil_r.
  - destruct (decide (p ∈ l)) as [Hin|Hin].
    + rewrite decide_True; [done|by right].
    + rewrite decide_False by (by intros [?|?]%elem_of_cons).
      by rewrite filter_app, filter_cons_True, filter_nil.
Qed.

Lemma length_fromkeys l : length (fromkeys l) ≤ length l.
Proof.
  induction l as [|x l IH]; simpl; [done|].
  pose proof (length_filter (λ y, y ≠ x) (fromkeys l)). lia.
Qed.

(** The paths of the cleaned entries are the paths of the entries, each
    once, in the order of their first occurrence. *)
Lemma clean_remote_paths changes :
  path_lower <$> entries (_clean_remote_changes changes)
  = fromkeys (path_lower <$> entries changes).
Proof.
  unfold _clean_remote_changes. simpl.
  assert (∀ us : list string,
    (∀ u, u ∈ us → u ∈ path_lower <$> entries changes) →
    path_lower <$> omap (λ h, last h) (history (entries changes) <$> us) = us)
    as Hgen.
  { induction us as [|u us IH]; intros Hus; [done|]. simpl.
    assert (u ∈ path_lower <$> entries changes) as Hu by (apply Hus; by left).
    apply list_elem_of_fmap in Hu as (e & -> & He).
    destruct (last (history (entries changes) (path_lower e))) as [e'|] eqn:El.
    - simpl. f_equal.
      + apply last_Some_elem_of in El. unfold history in El.
        by apply list_elem_of_filter in El as [? _].
      + apply IH. intros v Hv. apply Hus. by right.
    - apply last_None in El. unfold history in El.
      exfalso. by eapply (filter_nil_not_elem_of _ (entries changes) e). }
  apply Hgen. intros u Hu. by apply (proj1 (elem_of_fromkeys _ _)).
Qed.

Lemma elem_of_clean_remote changes e :
  e ∈ entries (_clean_remote_changes changes) ↔
  last (history (entries changes) (path_lower e)) = Some e.
Proof.
  unfold _clean_remote_changes. simpl. rewrite list_elem_of_omap. split.
  - intros (h & Hh & Hl). apply list_elem_of_fmap in Hh as (u & -> & Hu).
    pose proof (last_Some_elem_of _ _ Hl) as He. unfold history in He.
    apply list_elem_of_filter in He as [<- _]. done.
  - intros Hl. exists (history (entries changes) (path_lower e)).
    split; [|done]. apply list_elem_of_fmap_2, elem_of_fromkeys.
    apply last_Some_elem_of in Hl. unfold history in Hl.
    apply list_elem_of_filter in Hl as [_ He]. by apply list_elem_of_fmap_2.
Qed.

(** X11: [_clean_remote_changes] keeps the cursor and leaves exactly one
    entry for every path of the list: the paths are those of the input,
    none twice, and the entry kept for a path is the last one that the
    input holds for it. *)
Theorem clean_remote_changes_last_per_path changes :
  let cleaned := _clean_remote_changes changes in
  cursor cleaned = cursor changes ∧
  NoDup (path_lower <$> entries cleaned) ∧
  (∀ p, p ∈ path_lower <$> entries cleaned ↔ p ∈ path_lower <$> entries changes) ∧
  (∀ e, e ∈ entries cleaned ↔
        last (history (entries changes) (path_lower e)) = Some e).
Proof.
  cbv zeta. split; [done|]. rewrite clean_remote_paths.
  split; [apply NoDup_fromkeys|]. split.
  - intros p. apply elem_of_fromkeys.
  - apply elem_of_clean_remote.
Qed.

(** With one entry per path, every history is a single entry. *)
Lemma omap_last_history_NoDup es :
  NoDup (path_lower <$> es) →
  omap (λ h, last h) (history es <$> (path_lower <$> es)) = es.
Proof.
  assert (∀ (us : list string) (e : Metadata) (r : list Metadata),
    path_lower e ∉ us →
    omap (λ h, last h) (history (e :: r) <$> us)
    = omap (λ h, last h) (history r <$> us)) as Hskip.
  { induction us as [|u us IH]; intros e r Hn; [done|]. simpl.
    unfold history at 1. rewrite filter_cons_False.
    2:{ intros Heq. apply Hn. rewrite Heq. by left. }
    fold (history r u). rewrite IH; [done|]. intros ?. apply Hn. by right. }
  induction es as [|e r IH]; intros Hnd; [done|].
  rewrite fmap_cons in Hnd. apply NoDup_cons in Hnd as [Hn Hnd].
  rewrite !fmap_cons. simpl.
  unfold history at 1. rewrite filter_cons_True by done.
  rewrite (filter_nil_Forall (λ e0, path_lower e0 = path_lower e)).
  2:{ apply Forall_forall. intros x Hx Heq. apply Hn. rewrite <- Heq.
      by apply list_elem_of_fmap_2. }
  simpl. f_equal. rewrite Hskip by done. by apply IH.
Qed.

(** X12: cleaning a cleaned list of changes changes nothing. *)
Theorem clean_remote_changes_idempotent changes :
  _clean_remote_changes (_clean_remote_changes changes)
  = _clean_remote_changes changes.
Proof.
  set (c := _clean_remote_changes changes).
  assert (NoDup (path_lower <$> entries c)) as Hnd.
  { unfold c. rewrite clean_remote_paths. apply NoDup_fromkeys. }
  unfold _clean_remote_changes at 1.
  rewrite (fromkeys_NoDup _ Hnd), (omap_last_history_NoDup _ Hnd).
  by destruct c.
Qed.

(** X13: the history of recent changes holds no path twice and never more
    than [_max_history] paths; the path just saved is in it as long as the
    stored history was not longer than that. *)
Theorem save_to_history_bounded recent_changes dbx_path :
  let saved := _save_to_history recent_changes dbx_path in
  NoDup saved ∧
  length saved ≤ _max_history ∧
  (∀ p, p ∈ saved → p ∈ recent_changes ∨ p = dbx_path) ∧
  (length recent_changes ≤ _max_history → dbx_path ∈ saved).
Proof.
  cbv zeta. unfold _save_to_history, last_n. repeat split.
  - eapply sublist_NoDup; [apply NoDup_fromkeys|apply sublist_drop].
  - rewrite length_drop. unfold _max_history. lia.
  - intros p Hp%subseteq_drop%elem_of_fromkeys%elem_of_app.
    destruct Hp as [?|Hp]; [by left|right]. by apply list_elem_of_singleton in Hp.
  - intros Hlen. rewrite fromkeys_snoc. pose proof (length_fromkeys recent_changes).
    destruct (decide (dbx_path ∈ recent_changes)) as [Hin|Hin].
    + replace (length (fromkeys recent_changes) - _max_history) with 0 by lia.
      by apply elem_of_fromkeys.
    + rewrite drop_app_le by (rewrite length_app; simpl; unfold _max_history in *; lia).
      apply elem_of_app. right. by left.
Qed.

Lemma remove_first_perm x (l : list string) :
  x ∈ l → l ≡ₚ x :: Handler.list_remove_first x l.
Proof.
  induction l as [|y l IH]; intros Hx; [by apply elem_of_nil in Hx|]. simpl.
  destruct (decide (x = y)) as [->|Hne]; [done|].
  apply elem_of_cons in Hx as [?|Hx]; [done|].
  rewrite (IH Hx) at 1. apply Permutation_swap.
Qed.

Lemma remove_first_absent x (l : list string) :
  x ∉ l → Handler.list_remove_first x l = l.
Proof.
  induction l as [|y l IH]; intros Hx; [done|]. simpl.
  rewrite decide_False by (intros ->; apply Hx; by left).
  f_equal. apply IH. intros ?. apply Hx. by right.
Qed.

Lemma remove_from_queue_perm (names q l : list string) :
  l ≡ₚ q ++ names → remove_from_queue l names ≡ₚ q.
Proof.
  revert l; induction names as [|n names IH]; intros l Hl; simpl.
  { by rewrite app_nil_r in Hl. }
  apply IH.
  assert (n ∈ l) as Hn.
  { rewrite Hl. apply elem_of_app. right. by left. }
  apply (Permutation_cons_inv (a := n)).
  rewrite <- (remove_first_perm n l Hn), Hl.
  by rewrite Permutation_middle.
Qed.

Lemma InQueue_enter_app names q : InQueue_enter names q = q ++ names.
Proof.
  revert q; induction names as [|n names IH]; intros q; simpl.
  - by rewrite app_nil_r.
  - rewrite IH. by rewrite <- app_assoc.
Qed.

(** X14: what [InQueue] puts into a queue it takes out again: after the
    context has been left and its timer has fired the queue holds the
    paths it held before, each as often as before; and removing paths that
    are not queued changes nothing. *)
Theorem InQueue_restores_queue names q :
  InQueue_exit names (InQueue_enter names q) ≡ₚ q ∧
  ((∀ n, n ∈ names → n ∉ q) → remove_from_queue q names = q).
Proof.
  split.
  - unfold InQueue_exit. rewrite InQueue_enter_app.
    by apply remove_from_queue_perm.
  - revert q; induction names as [|n names IH]; intros q Hn; simpl; [done|].
    rewrite remove_first_absent by (apply Hn; by left).
    apply IH. intros m Hm. apply Hn. by right.
Qed.

End remote_extras.

Lemma save_to_history_bounded_witness :
  "/b.txt" ∈ Remote._save_to_history ["/a.txt"; "/b.txt"; "/c.txt"] "/b.txt".
Proof.
  apply (save_to_history_bounded ["/a.txt"; "/b.txt"; "/c.txt"] "/b.txt").
  unfold Remote._max_history. simpl. lia.
Defined.

Lemma InQueue_restores_queue_witness :
  Remote.remove_from_queue ["/x"; "/y"] ["/a"; "/b"] = ["/x"; "/y"].
Proof.
  apply (proj2 (InQueue_restores_queue ["/a"; "/b"] ["/x"; "/y"])).
  intros n Hn Hq.
  apply list_elem_of_In in Hn, Hq. simpl in *.
  destruct Hn as [<-|[<-|[]]], Hq as [?|[?|[]]]; discriminate.
Defined.

(** ** More on the event normalizer *)

Section normalizer_extras.
Import Normalizer Burst.

Variable _should_split_excluded : event → bool.
Variable set_order : list string → list string.
Hypothesis set_order_perm : ∀ l, set_order l ≡ₚ l.

Lemma bind_singletons {A} (f : A → list A) (l : list A) :
  (∀ x, x ∈ l → f x = [x]) → l ≫= f = l.
Proof.
  induction l as [|x l IH]; intros H; [done|].
  rewrite bind_cons, H by (by left). simpl. f_equal.
  apply IH. intros y Hy. apply H. by right.
Qed.

Lemma split_moved_about p h :
  about p h → split_moved _should_split_excluded h = h.
Proof.
  intros Hh. unfold split_moved. apply bind_singletons.
  intros e He. apply (proj1 (Forall_forall _ _) Hh) in He as [_ Hm].
  unfold has_type. by rewrite bool_decide_eq_false_2.
Qed.

Lemma remove_dups_cons_elem (x : string) l :
  x ∈ l → remove_dups (x :: l) = remove_dups l.
Proof.
  intros H. simpl. destruct (decide_rel elem_of x l); [done|contradiction].
Qed.

Lemma remove_dups_about p h :
  about p h → h ≠ [] → remove_dups (src_path <$> h) = [p].
Proof.
  induction 1 as [|e h [He _] Hh IH]; intros Hne; [done|].
  rewrite fmap_cons, He. destruct h as [|e' h]; [done|].
  rewrite remove_dups_cons_elem; [by apply IH|].
  apply Forall_cons in Hh as [[<- _] _]. rewrite fmap_cons. by left.
Qed.

Lemma filter_about p h : about p h → filter (λ e, src_path e = p) h = h.
Proof.
  intros Hh. apply filter_id_Forall. eapply Forall_impl; [done|]. by intros e [? _].
Qed.

(** On a burst about one path the normalizer is the reduction of its one
    history. *)
Lemma clean_about p h :
  about p h → h ≠ [] →
  _clean_local_events _should_split_excluded set_order h = reduce_history h.
Proof.
  intros Hh Hne.
  apply (clean_single_path _should_split_excluded set_order set_order_perm p).
  - by eapply split_moved_about.
  - by apply remove_dups_about.
  - by apply filter_about.
Qed.

Lemma first_index_found t h :
  0 < count_type t h → (0 <= first_index t h)%Z.
Proof.
  unfold count_type. induction h as [|e h IH]; simpl; [lia|].
  destruct (has_type t e) eqn:E; [lia|].
  rewrite filter_cons_False by congruence. intros H%IH.
  destruct (first_index t h <? 0)%Z eqn:F; [apply Z.ltb_lt in F|]; lia.
Qed.

(** X15: an item that appears and is gone again within one burst leaves
    no event: when the events about a path start with a creation and hold
    as many deletions as creations, the normalizer emits nothing for it. *)
Theorem clean_transient_item p e0 e1 rest :
  let h := e0 :: e1 :: rest in
  about p h →
  event_type e0 = EVENT_TYPE_CREATED →
  count_type EVENT_TYPE_CREATED h = count_type EVENT_TYPE_DELETED h →
  _clean_local_events _should_split_excluded set_order h = [].
Proof.
  cbv zeta. intros Hh Hc Heq. rewrite (clean_about p) by done.
  assert (0 < count_type EVENT_TYPE_CREATED (e0 :: e1 :: rest)) as Hpos.
  { unfold count_type. rewrite filter_cons_True; [simpl; lia|].
    unfold has_type. by rewrite bool_decide_eq_true_2. }
  pose proof (first_index_found EVENT_TYPE_DELETED (e0 :: e1 :: rest)) as Hd.
  rewrite <- Heq in Hd. specialize (Hd Hpos).
  assert (first_index EVENT_TYPE_CREATED (e0 :: e1 :: rest) = 0%Z) as Hfc.
  { simpl. unfold has_type. by rewrite bool_decide_eq_true_2. }
  unfold reduce_history. cbv zeta. fold (count_type EVENT_TYPE_CREATED (e0 :: e1 :: rest)).
  fold (count_type EVENT_TYPE_DELETED (e0 :: e1 :: rest)).
  rewrite Hfc, <- Heq, Nat.ltb_irrefl.
  rewrite (proj2 (Nat.eqb_neq _ _)) by lia.
  rewrite (proj2 (Z.ltb_ge _ _)) by lia. done.
Qed.

(** X16: when the events about a path hold more deletions than creations,
    the normalizer emits exactly one event for it, the deletion of an item
    of the kind that the first event reports. *)
Theorem clean_deleted_item p e0 e1 rest :
  let h := e0 :: e1 :: rest in
  about p h →
  count_type EVENT_TYPE_CREATED h < count_type EVENT_TYPE_DELETED h →
  _clean_local_events _should_split_excluded set_order h
  = [if is_directory e0 then DirDeletedEvent p else FileDeletedEvent p].
Proof.
  cbv zeta. intros Hh Hlt. rewrite (clean_about p) by done.
  assert (src_path e0 = p) as Hp by (by apply Forall_cons in Hh as [[? _] _]).
  unfold reduce_history. cbv zeta. fold (count_type EVENT_TYPE_CREATED (e0 :: e1 :: rest)).
  fold (count_type EVENT_TYPE_DELETED (e0 :: e1 :: rest)).
  rewrite (proj2 (Nat.ltb_ge _ _)) by lia.
  rewrite (proj2 (Nat.ltb_lt _ _)) by lia.
  rewrite Hp. by destruct (is_directory e0).
Qed.

(** X17: a burst of modifications of one file collapses to a single
    [FileModifiedEvent]. *)
Theorem clean_modified_file p e0 e1 rest :
  let h := e0 :: e1 :: rest in
  Forall (λ e, src_path e = p ∧ event_type e = EVENT_TYPE_MODIFIED
               ∧ is_directory e = false) h →
  _clean_local_events _should_split_excluded set_order h
  = [FileModifiedEvent p].
Proof.
  cbv zeta. intros Hh.
  assert (about p (e0 :: e1 :: rest)) as Ha.
  { eapply Forall_impl; [exact Hh|]. intros e (? & -> & _). done. }
  rewrite (clean_about p) by done.
  assert (∀ t, t ≠ EVENT_TYPE_MODIFIED → count_type t (e0 :: e1 :: rest) = 0) as Hz.
  { intros t Ht. unfold count_type. rewrite filter_nil_Forall; [done|].
    eapply Forall_impl; [exact Hh|]. intros e (_ & He & _).
    unfold has_type. rewrite bool_decide_eq_false_2; [done|congruence]. }
  assert (is_directory e0 = false ∧ src_path e0 = p) as [Hd0 Hp].
  { by apply Forall_cons in Hh as [(? & _ & ?) _]. }
  assert (is_directory (List.last rest e1) = false) as Hdl.
  { assert (List.last rest e1 ∈ e1 :: rest) as Hin.
    { clear. induction rest as [|x r IH]; [by left|].
      destruct r as [|y r]; [right; by left|].
      change (List.last (x :: y :: r) e1) with (List.last (y :: r) e1).
      apply elem_of_cons in IH as [->|IH]; [by left|]. by do 2 right. }
    apply Forall_cons in Hh as [_ Hh].
    by apply (proj1 (Forall_forall _ _) Hh) in Hin as (_ & _ & ?). }
  unfold reduce_history. cbv zeta. fold (count_type EVENT_TYPE_CREATED (e0 :: e1 :: rest)).
  fold (count_type EVENT_TYPE_DELETED (e0 :: e1 :: rest)).
  rewrite !Hz by done. rewrite Hd0, Hdl, Hp. done.
Qed.

(** X18: whatever the input, the normalized list holds no bare
    [DirModifiedEvent], and every event of it comes out of
    [_clean_local_events]: the later steps only drop events. *)
Theorem normalize_drops_dir_modified events e :
  e ∈ normalize _should_split_excluded set_order events →
  e ∈ _clean_local_events _should_split_excluded set_order events ∧
  ¬ (event_type e = EVENT_TYPE_MODIFIED ∧ is_directory e = true).
Proof.
  unfold normalize. cbv zeta.
  set (c := _clean_local_events _should_split_excluded set_order events).
  set (l1 := filter _ c).
  assert (∀ l2 : list event, ∀ (b : bool) (k : list event), e ∈ (if b then _list_diff l2 k else l2) → e ∈ l2)
    as Hdrop.
  { intros l2 [] k; [|done]. unfold _list_diff.
    by intros [_ ?]%list_elem_of_filter. }
  intros H%Hdrop%Hdrop. unfold l1 in H.
  apply list_elem_of_filter in H as [? ?]. done.
Qed.

Lemma reduce_history_src u h e :
  Forall (λ x, src_path x = u) h → e ∈ reduce_history h →
  src_path e = u ∧ (event_type e = EVENT_TYPE_MOVED → e ∈ h).
Proof.
  intros Hh. destruct h as [|h0 [|h1 rest]]; simpl.
  - by intros ?%elem_of_nil.
  - intros ->%list_elem_of_singleton.
    apply Forall_cons in Hh as [? _]. split; [done|]. intros _. by left.
  - apply Forall_cons in Hh as [Hp _]. rewrite Hp.
    intros H. apply elem_of_app in H.
    assert (e ∈ [DirCreatedEvent u; FileCreatedEvent u; DirDeletedEvent u;
                 FileDeletedEvent u; DirModifiedEvent u; FileModifiedEvent u])
      as Hin.
    { destruct H as [H|H]; repeat case_match;
        repeat (apply elem_of_cons in H as [->|H]);
        try (by apply elem_of_nil in H);
        apply list_elem_of_In; simpl; tauto. }
    apply list_elem_of_In in Hin. simpl in Hin.
    destruct Hin as [<-|[<-|[<-|[<-|[<-|[<-|[]]]]]]]; by split.
Qed.

Lemma split_moved_origin events e :
  e ∈ split_moved _should_split_excluded events →
  (∃ e0, e0 ∈ events ∧
         (src_path e = src_path e0 ∨ src_path e = get_dest_path e0)) ∧
  (event_type e = EVENT_TYPE_MOVED → e ∈ events).
Proof.
  unfold split_moved. intros (e0 & He & He0)%list_elem_of_bind.
  repeat case_match;
    repeat (apply elem_of_cons in He as [->|He]);
    try (by apply elem_of_nil in He);
    (split; [exists e0; split; [done|]; simpl; tauto|done]).
Qed.

(** X19: the normalizer invents nothing: every event it emits is about a
    path that an event of the input names as its source or destination, and
    every move it emits is a move of the input, unchanged. *)
Theorem clean_local_events_conservative events e :
  e ∈ _clean_local_events _should_split_excluded set_order events →
  (∃ e0, e0 ∈ events ∧
         (src_path e = src_path e0 ∨ src_path e = get_dest_path e0)) ∧
  (event_type e = EVENT_TYPE_MOVED → e ∈ events).
Proof.
  unfold _clean_local_events. cbv zeta.
  set (ev := split_moved _should_split_excluded events).
  intros (h & He & Hh)%list_elem_of_bind.
  apply list_elem_of_fmap in Hh as (u & -> & Hu).
  rewrite set_order_perm in Hu. apply (proj1 (elem_of_remove_dups _ _)) in Hu.
  apply list_elem_of_fmap in Hu as (e' & -> & He').
  apply reduce_history_src with (u := src_path e') in He as [Hsrc Hmv].
  2:{ apply Forall_forall. by intros x [? _]%list_elem_of_filter. }
  destruct (split_moved_origin events e' He') as [(e0 & He0 & Hor) _].
  split.
  - exists e0. split; [done|]. by rewrite Hsrc.
  - intros Hm. specialize (Hmv Hm). apply list_elem_of_filter in Hmv as [_ Hin].
    by apply (split_moved_origin events e Hin).
Qed.

End normalizer_extras.

Lemma clean_transient_item_witness :
  Normalizer._clean_local_events (λ _, false) (λ l, l)
    [FileCreatedEvent "/db/a"; FileModifiedEvent "/db/a"; FileDeletedEvent "/db/a";
     FileCreatedEvent "/db/a"; FileDeletedEvent "/db/a"] = [].
Proof.
  apply (clean_transient_item (λ _, false) (λ l, l) (λ l, reflexivity l) "/db/a").
  - repeat constructor; discriminate.
  - reflexivity.
  - reflexivity.
Defined.

Lemma clean_deleted_item_witness :
  Normalizer._clean_local_events (λ _, false) (λ l, l)
    [DirModifiedEvent "/db/a"; FileCreatedEvent "/db/a"; DirDeletedEvent "/db/a";
     FileDeletedEvent "/db/a"] = [DirDeletedEvent "/db/a"].
Proof.
  apply (clean_deleted_item (λ _, false) (λ l, l) (λ l, reflexivity l) "/db/a"
           (DirModifiedEvent "/db/a")).
  - repeat constructor; discriminate.
  - vm_compute. lia.
Defined.

Lemma clean_modified_file_witness :
  Normalizer._clean_local_events (λ _, false) (λ l, l)
    [FileModifiedEvent "/db/a"; FileModifiedEvent "/db/a"; FileModifiedEvent "/db/a"]
  = [FileModifiedEvent "/db/a"].
Proof.
  apply (clean_modified_file (λ _, false) (λ l, l) (λ l, reflexivity l) "/db/a").
  repeat constructor.
Defined.

Lemma normalize_drops_dir_modified_witness :
  DirMovedEvent "/db/a" "/db/b" ∈
    Normalizer._clean_local_events (λ _, false) (λ l, l)
      [DirModifiedEvent "/db/c"; DirMovedEvent "/db/a" "/db/b";
       FileMovedEvent "/db/a/x" "/db/b/x"] ∧
  ¬ (event_type (DirMovedEvent "/db/a" "/db/b") = EVENT_TYPE_MODIFIED ∧
     is_directory (DirMovedEvent "/db/a" "/db/b") = true).
Proof.
  apply (normalize_drops_dir_modified (λ _, false) (λ l, l)).
  vm_compute. apply list_elem_of_here.
Defined.

Lemma clean_local_events_conservative_witness :
  (∃ e0, e0 ∈ [FileMovedEvent "/db/a" "/db/b"; FileModifiedEvent "/db/b"] ∧
         (src_path (FileCreatedEvent "/db/b") = src_path e0 ∨
          src_path (FileCreatedEvent "/db/b") = get_dest_path e0)) ∧
  (event_type (FileCreatedEvent "/db/b") = EVENT_TYPE_MOVED →
   FileCreatedEvent "/db/b" ∈
     [FileMovedEvent "/db/a" "/db/b"; FileModifiedEvent "/db/b"]).
Proof.
  apply (clean_local_events_conservative (λ _, false) (λ l, l) (λ l, reflexivity l)).
  vm_compute. apply list_elem_of_further, list_elem_of_here.
Defined.

(** ** The list of excluded folders *)

Section excluded_items_extras.
Import Path Batch.
Context {str_lower : Lower}.

Lemma rstrip_sep_idem s : rstrip_sep (rstrip_sep s) = rstrip_sep s.
Proof.
  induction s as [|c s IH]; [done|]. simpl.
  destruct (is_sep c && bool_decide (rstrip_sep s = "")) eqn:E; [done|].
  simpl. by rewrite IH, E.
Qed.

Lemma length_string_app a b :
  String.length (a +:+ b) = String.length a + String.length b.
Proof.
  induction a as [|c a IH]; [done|].
  change (String.length (String c (a +:+ b)) = S (String.length a) + String.length b).
  simpl. by rewrite IH.
Qed.

Lemma startswith_app s t : startswith (s +:+ t) s = true.
Proof.
  induction s as [|c s IH]; [by destruct t|].
  change (startswith (String c (s +:+ t)) (String c s) = true).
  simpl. by rewrite bool_decide_eq_true_2.
Qed.

(** Beneath a folder a path is strictly longer, trailing separators
    apart. *)
Lemma is_child_longer a b :
  is_child a b = true →
  String.length (rstrip_sep b) < String.length (rstrip_sep a).
Proof.
  unfold is_child. intros [H%startswith_length _]%andb_true_iff.
  rewrite length_string_app in H. simpl in H. lia.
Qed.

Lemma is_child_trans a b c :
  is_child a b = true → is_child b c = true → is_child a c = true.
Proof.
  intros Hab Hbc. pose proof (is_child_longer _ _ Hab) as Lab.
  pose proof (is_child_longer _ _ Hbc) as Lbc.
  unfold is_child in *.
  apply andb_true_iff in Hab as [Hab _], Hbc as [Hbc _].
  apply andb_true_iff. split.
  - eapply startswith_trans; [exact Hab|].
    eapply startswith_trans; [apply startswith_app|exact Hbc].
  - apply negb_true_iff, bool_decide_eq_false. intros Heq.
    apply (f_equal String.length) in Heq.
    rewrite length_string_app in Heq. simpl in Heq. lia.
Qed.

Lemma is_child_rstrip_parent a b : is_child a (rstrip_sep b) = is_child a b.
Proof. unfold is_child. by rewrite rstrip_sep_idem. Qed.

Lemma elem_of_fold_filter (fs init : list string) f :
  f ∈ foldl (λ clean_list folder,
               filter (λ f, is_child f folder = false) clean_list) init fs
  ↔ f ∈ init ∧ ∀ g, g ∈ fs → is_child f g = false.
Proof.
  revert init; induction fs as [|x fs IH]; intros init; simpl.
  - split; [intros ?; split; [done|]; by intros g ?%elem_of_nil|by intros [? _]].
  - rewrite IH, list_elem_of_filter. split.
    + intros [[Hx Hin] Hfs]. split; [done|].
      intros g [->|Hg]%elem_of_cons; [done|by apply Hfs].
    + intros [Hin Hall]. split; [split; [|done]|].
      * apply Hall. by left.
      * intros g Hg. apply Hall. by right.
Qed.

Lemma NoDup_fold_filter (fs init : list string) :
  NoDup init →
  NoDup (foldl (λ clean_list folder,
                  filter (λ f, is_child f folder = false) clean_list) init fs).
Proof.
  revert init; induction fs as [|x fs IH]; intros init Hnd; simpl; [done|].
  by apply IH, NoDup_filter.
Qed.

Lemma elem_of_clean_excluded folder_list f :
  f ∈ clean_excluded_items_list folder_list ↔
  f ∈ (λ f, rstrip_sep (lower f)) <$> folder_list ∧
  ∀ g, g ∈ (λ f, rstrip_sep (lower f)) <$> folder_list → is_child f g = false.
Proof.
  unfold clean_excluded_items_list. rewrite elem_of_fold_filter.
  rewrite elem_of_remove_dups. split; intros [Hin Hall]; (split; [done|]);
    intros g Hg; apply Hall.
  - by apply elem_of_remove_dups.
  - by apply (proj1 (elem_of_remove_dups _ _)).
Qed.

(** X20: the cleaned list of excluded folders holds, without repetition,
    exactly the lower-cased folders (trailing separators removed) that do
    not lie beneath another folder of the list. *)
Theorem clean_excluded_items_list_roots folder_list :
  let normalized := (λ f, rstrip_sep (lower f)) <$> folder_list in
  let cleaned := clean_excluded_items_list folder_list in
  NoDup cleaned ∧
  ∀ f, f ∈ cleaned ↔
       f ∈ normalized ∧ ∀ g, g ∈ normalized → is_child f g = false.
Proof.
  cbv zeta. split; [|apply elem_of_clean_excluded].
  unfold clean_excluded_items_list. apply NoDup_fold_filter, NoDup_remove_dups.
Qed.

(** Every listed folder is in the cleaned list or beneath a folder of
    it. *)
Lemma clean_excluded_covers folder_list g :
  g ∈ (λ f, rstrip_sep (lower f)) <$> folder_list →
  ∃ c, c ∈ clean_excluded_items_list folder_list ∧
       (g = c ∨ is_child g c = true).
Proof.
  remember (String.length g) as n eqn:Hn. revert g Hn.
  induction n as [n IH] using lt_wf_ind. intros g -> Hg.
  destruct (decide (g ∈ clean_excluded_items_list folder_list)) as [Hc|Hc].
  { exists g. split; [done|by left]. }
  assert (∃ g', g' ∈ (λ f, rstrip_sep (lower f)) <$> folder_list ∧
                is_child g g' = true) as (g' & Hg' & Hch).
  { destruct (decide (Exists (λ g', is_child g g' = true)
               ((λ f, rstrip_sep (lower f)) <$> folder_list))) as [He|He].
    - apply Exists_exists in He as (g' & ? & ?). by exists g'.
    - destruct Hc. apply elem_of_clean_excluded. split; [done|].
      intros g' Hg'. destruct (is_child g g') eqn:E; [|done].
      destruct He. apply Exists_exists. by exists g'. }
  assert (String.length g' < String.length g) as Hlt.
  { apply is_child_longer in Hch.
    apply list_elem_of_fmap in Hg as (f & -> & _).
    apply list_elem_of_fmap in Hg' as (f' & -> & _).
    by rewrite !rstrip_sep_idem in Hch. }
  destruct (IH _ Hlt g' eq_refl Hg') as (c & Hcin & Hor).
  exists c. split; [done|]. right.
  destruct Hor as [<-|Hor]; [done|]. by eapply is_child_trans.
Qed.

(** X21: cleaning the list of excluded folders does not change what
    [is_excluded_by_user] excludes: a path is excluded under the cleaned
    list exactly when it is excluded under the lower-cased list. *)
Theorem clean_excluded_items_list_same_exclusion {World}
    (s s' : sync World) folder_list dbx_path :
  excluded_items s = (λ f, rstrip_sep (lower f)) <$> folder_list →
  excluded_items s' = clean_excluded_items_list folder_list →
  is_excluded_by_user World s' dbx_path = is_excluded_by_user World s dbx_path.
Proof.
  intros Hs Hs'. unfold is_excluded_by_user. rewrite Hs, Hs'.
  apply eq_true_iff_eq. rewrite !existsb_exists. split.
  - intros (c & Hc & Hm). exists c. split; [|done].
    apply list_elem_of_In. apply list_elem_of_In in Hc.
    by apply elem_of_clean_excluded in Hc as [? _].
  - intros (g & Hg%list_elem_of_In & Hm).
    destruct (clean_excluded_covers _ _ Hg) as (c & Hc & Hor).
    exists c. split; [by apply list_elem_of_In|].
    destruct Hor as [<-|Hch]; [done|].
    apply orb_true_iff. right. apply orb_true_iff in Hm as [Hm|Hm].
    + apply bool_decide_eq_true in Hm. by rewrite Hm.
    + by eapply is_child_trans.
Qed.

End excluded_items_extras.

Lemma clean_excluded_items_list_same_exclusion_witness :
  Batch.is_excluded_by_user ()
    (Batch.Sync "" 0 (Batch.clean_excluded_items_list ["/Private/"; "/private/tax"; "/Work"])
       [] ∅ [] [] tt) "/private/tax/2019.pdf"
  = Batch.is_excluded_by_user ()
      (Batch.Sync "" 0 ["/private"; "/private/tax"; "/work"] [] ∅ [] [] tt)
      "/private/tax/2019.pdf".
Proof.
  apply (clean_excluded_items_list_same_exclusion _ _
           ["/Private/"; "/private/tax"; "/Work"]); reflexivity.
Defined.

(** ** More on the batches *)

Section batch_extras.
Import Path Batch.
Context {str_lower : Lower}.

Variable World : Type.
Variable EXCLUDED_FILE_NAMES : list string.
Variable to_local_path : World → string → string.
Variable to_dbx_path : string → option string.
Variable mignore_is_empty : World → bool.
Variable _is_mignore_path : World → string → bool → bool.
Variable get_local_rev : World → string → option string.
Variable _apply_event_body :
  event → sync World → outcome (option ()) * sync World.

(** Nothing that [_apply_event] calls assigns [last_sync]. *)
Hypothesis body_keeps_last_sync :
  ∀ e s, last_sync (_apply_event_body e s).2 = last_sync s.

Abbreviation apply_event :=
  (_apply_event World to_local_path _apply_event_body).
Abbreviation filter_local :=
  (_filter_excluded_changes_local World EXCLUDED_FILE_NAMES to_dbx_path
     mignore_is_empty _is_mignore_path get_local_rev).
Abbreviation passes_local :=
  (passes World EXCLUDED_FILE_NAMES to_dbx_path mignore_is_empty
     _is_mignore_path get_local_rev).
Abbreviation mignore :=
  (is_mignore World to_dbx_path mignore_is_empty _is_mignore_path get_local_rev).

Lemma apply_event_keeps_last_sync e s :
  last_sync (apply_event e s).2 = last_sync s.
Proof.
  unfold _apply_event, catch_sync_issues.
  pose proof (body_keeps_last_sync e s) as H.
  destruct (_apply_event_body e s) as [[[v|]|exc|exc] s']; simpl in *;
    try done.
  destruct (exc_dbx_path exc); done.
Qed.

Lemma for_each_keeps {A B X} (proj : sync World → X)
    (f : A → sync World → completion (result B) * sync World) :
  (∀ x s, proj (f x s).2 = proj s) →
  ∀ items s, proj (for_each World f items s).2 = proj s.
Proof.
  intros Hf items. induction items as [|x items IH]; intros s; simpl; [done|].
  pose proof (Hf x s) as Hx.
  destruct (f x s) as [[r|exc] s1]; simpl in *; [|done].
  specialize (IH s1).
  destruct (for_each World f items s1) as [[rs|exc] s2]; simpl in *;
    congruence.
Qed.

Lemma in_pool_keeps {A B X} (proj : sync World → X)
    (f : A → sync World → completion (result B) * sync World) :
  (∀ x s, proj (f x s).2 = proj s) →
  ∀ items s, proj (in_pool World f items s).2 = proj s.
Proof.
  intros Hf items. induction items as [|x items IH]; intros s; simpl; [done|].
  pose proof (Hf x s) as Hx.
  destruct (f x s) as [r s1]; simpl in *.
  specialize (IH s1).
  destruct (in_pool World f items s1) as [rs s2]; simpl in *.
  destruct r, rs; simpl; congruence.
Qed.

(** The only exception that [is_mignore] raises is a [ValueError]. *)
Lemma is_mignore_raises w e exc : mignore w e = Aborted exc → exc = "ValueError".
Proof.
  unfold is_mignore. destruct (mignore_is_empty w); [done|].
  destruct (has_type EVENT_TYPE_MOVED e); [congruence|].
  destruct (to_dbx_path (src_path e)); [done|congruence].
Qed.

Lemma passes_raises s e exc : passes_local s e = Aborted exc → exc = "ValueError".
Proof.
  unfold passes. destruct (to_dbx_path (get_dest_path e)) as [p|]; [|congruence].
  destruct (is_excluded _ p || is_excluded_by_user World s p); [done|].
  destruct (mignore (world s) e) as [b|exc'] eqn:E; [done|].
  intros [= <-]. by eapply is_mignore_raises.
Qed.

(** The tests on an event read the excluded items and the world only. *)
Lemma passes_same s1 s e :
  excluded_items s1 = excluded_items s → world s1 = world s →
  passes_local s1 e = passes_local s e.
Proof.
  intros Hex Hw. unfold passes, is_excluded_by_user. by rewrite Hex, Hw.
Qed.

(** What the loop has done when it is left: [r] is its result on
    [events], started in a state that agrees with [s] on the fields
    below. *)
Abbreviation filtered s events r :=
  (last_sync r.2 = last_sync s ∧
   last_cursor r.2 = last_cursor s ∧
   excluded_items r.2 = excluded_items s ∧
   world r.2 = world s ∧
   match r.1 with
   | Completed kept =>
       kept = filter (λ e, passes_local s e = Completed true) events%list ∧
       Forall (λ e, ∃ b, passes_local s e = Completed b) events
   | Aborted exc =>
       exc = "ValueError" ∧
       Exists (λ e, passes_local s e = Aborted "ValueError") events
   end).

Lemma filtered_skip s e events (r : completion (list event) * sync World) :
  passes_local s e = Completed false →
  filtered s events r → filtered s (e :: events) r.
Proof.
  intros He (H1 & H2 & H3 & H4 & H5). repeat (split; [done|]).
  destruct r.1 as [kept|exc].
  - destruct H5 as [-> Hall]. split.
    + rewrite filter_cons_False; [done|]. by rewrite He.
    + constructor; [by eexists|done].
  - destruct H5 as [-> Hex]. split; [done|]. by apply Exists_cons_tl.
Qed.

Lemma filtered_keep s e events (r : completion (list event) * sync World) :
  passes_local s e = Completed true →
  filtered s events r →
  filtered s (e :: events)
    (match r with
     | (Completed kept, s') => (Completed (e :: kept), s')
     | (Aborted exc, s') => (Aborted exc, s')
     end).
Proof.
  intros He (H1 & H2 & H3 & H4 & H5). destruct r as [[kept|exc] s'].
  - simpl in *. repeat (split; [done|]). destruct H5 as [-> Hall]. split.
    + by rewrite filter_cons_True.
    + constructor; [by eexists|done].
  - simpl in *. repeat (split; [done|]). destruct H5 as [-> Hex].
    split; [done|]. by apply Exists_cons_tl.
Qed.

Lemma filter_local_cons e events s :
  filter_local (e :: events) s =
  match to_dbx_path (get_dest_path e) with
  | None => (Aborted "ValueError", s)
  | Some dbx_path =>
      if is_excluded EXCLUDED_FILE_NAMES dbx_path then filter_local events s
      else if is_excluded_by_user World s dbx_path then
        filter_local events
          (if has_type EVENT_TYPE_DELETED e
           then clear_sync_error World dbx_path s
           else set_sync_errors
                  (sync_errors s
                   ++ [MkSyncError (Some dbx_path) (Some (get_dest_path e))]) s)
      else
        match mignore (world s) e with
        | Aborted exc => (Aborted exc, s)
        | Completed true => filter_local events s
        | Completed false =>
            match filter_local events s with
            | (Completed kept, s') => (Completed (e :: kept), s')
            | (Aborted exc, s') => (Aborted exc, s')
            end
        end
  end.
Proof. reflexivity. Qed.

(** The loop keeps the events that pass, in their order, unless one of the
    events raises; on its way it only touches the error lists. *)
Lemma filter_local_spec events s :
  filtered s events (filter_local events s).
Proof.
  revert s; induction events as [|e events IH]; intros s; [done|].
  assert (∀ s1, excluded_items s1 = excluded_items s → world s1 = world s →
    last_sync s1 = last_sync s → last_cursor s1 = last_cursor s →
    filtered s events (filter_local events s1)) as Hrest.
  { intros s1 Hex Hw Hls Hlc.
    destruct (IH s1) as (H1 & H2 & H3 & H4 & H5).
    rewrite H1, H2, H3, H4. repeat (split; [done|]).
    destruct (filter_local events s1).1 as [kept|exc].
    - destruct H5 as [-> Hall]. split.
      + apply list_filter_iff. intros x. by rewrite (passes_same s1 s).
      + eapply Forall_impl; [exact Hall|]. intros x [b Hb].
        exists b. by rewrite <- (passes_same s1 s).
    - destruct H5 as [-> Hex']. split; [done|].
      eapply Exists_impl; [exact Hex'|]. intros x Hx.
      by rewrite <- (passes_same s1 s). }
  rewrite filter_local_cons.
  destruct (to_dbx_path (get_dest_path e)) as [p|] eqn:Ep.
  2:{ repeat (split; [done|]). apply Exists_cons_hd.
      unfold passes. by rewrite Ep. }
  destruct (is_excluded EXCLUDED_FILE_NAMES p) eqn:E1.
  { apply filtered_skip; [|by apply Hrest].
    unfold passes. by rewrite Ep, E1. }
  destruct (is_excluded_by_user World s p) eqn:E2.
  { apply filtered_skip; [unfold passes; by rewrite Ep, E1, E2|].
    apply Hrest; by destruct (has_type EVENT_TYPE_DELETED e). }
  destruct (mignore (world s) e) as [[|]|exc] eqn:E3.
  - apply filtered_skip; [|by apply Hrest].
    unfold passes. by rewrite Ep, E1, E2, E3.
  - apply filtered_keep; [|by apply Hrest].
    unfold passes. by rewrite Ep, E1, E2, E3.
  - pose proof (is_mignore_raises _ _ _ E3) as ->.
    repeat (split; [done|]). apply Exists_cons_hd.
    unfold passes. by rewrite Ep, E1, E2, E3.
Qed.

(** X22: [_filter_excluded_changes_local] raises a [ValueError] exactly when
    [to_dbx_path] or [is_mignore] raises on one of the events that it has to
    test; otherwise it returns the events that are excluded by none of
    [is_excluded], [is_excluded_by_user] and [is_mignore], in the order of
    the input.  Either way it changes neither [last_sync] nor [last_cursor]
    nor the excluded items. *)
Theorem filter_excluded_changes_local_keeps events s :
  let tested :=
    passes World EXCLUDED_FILE_NAMES to_dbx_path mignore_is_empty
      _is_mignore_path get_local_rev s in
  let r :=
    _filter_excluded_changes_local World EXCLUDED_FILE_NAMES to_dbx_path
      mignore_is_empty _is_mignore_path get_local_rev events s in
  last_sync r.2 = last_sync s ∧
  last_cursor r.2 = last_cursor s ∧
  excluded_items r.2 = excluded_items s ∧
  match r.1 with
  | Completed kept =>
      kept = filter (λ e, tested e = Completed true) events ∧
      Forall (λ e, ∃ b, tested e = Completed b) events
  | Aborted exc =>
      exc = "ValueError" ∧
      Exists (λ e, tested e = Aborted "ValueError") events
  end.
Proof.
  cbv zeta.
  destruct (filter_local_spec events s) as (H1 & H2 & H3 & _ & H5). done.
Qed.

Lemma apply_local_changes_last_sync_cases events local_cursor s :
  match apply_local_changes World EXCLUDED_FILE_NAMES to_local_path
          to_dbx_path mignore_is_empty _is_mignore_path get_local_rev
          _apply_event_body events local_cursor s with
  | (Completed _, s') =>
      last_sync s' = local_cursor ∨ last_sync s' = last_sync s
  | (Aborted _, s') => last_sync s' = last_sync s
  end.
Proof.
  unfold apply_local_changes.
  destruct (filter_local_spec events s) as (H0 & _).
  destruct (filter_local events s) as [[kept|exc] s0]; simpl in H0; [|done].
  set (s1 := set_queued_for_upload _ s0).
  assert (last_sync s1 = last_sync s) as H1 by done. clearbody s1.
  pose proof (for_each_keeps last_sync apply_event apply_event_keeps_last_sync)
    as Hfe.
  pose proof (in_pool_keeps last_sync apply_event apply_event_keeps_last_sync)
    as Hip.
  match goal with |- context [for_each World apply_event ?l s1] =>
    pose proof (Hfe l s1) as H2;
    destruct (for_each World apply_event l s1) as [[d1|e1] s2] end;
    simpl in H2; [|congruence].
  match goal with |- context [for_each World apply_event ?l s2] =>
    pose proof (Hfe l s2) as H3;
    destruct (for_each World apply_event l s2) as [[d2|e2] s3] end;
    simpl in H3; [|congruence].
  match goal with |- context [in_pool World apply_event ?l s3] =>
    pose proof (Hip l s3) as H4;
    destruct (in_pool World apply_event l s3) as [[d3|e3] s4] end;
    simpl in H4; [|congruence].
  destruct (forallb truth d3); [by left|right; simpl; congruence].
Qed.

(** X23: [apply_local_changes] leaves [last_sync] either as it was or at
    [local_cursor]; when an exception other than a sync error cuts the
    batch short, [last_sync] is as it was. *)
Theorem apply_local_changes_last_sync events local_cursor s :
  match apply_local_changes World EXCLUDED_FILE_NAMES to_local_path
          to_dbx_path mignore_is_empty _is_mignore_path get_local_rev
          _apply_event_body events local_cursor s with
  | (Completed _, s') =>
      last_sync s' = local_cursor ∨ last_sync s' = last_sync s
  | (Aborted _, s') => last_sync s' = last_sync s
  end.
Proof. apply apply_local_changes_last_sync_cases. Qed.

(** X28: once the mignore file holds a pattern, a moved event that is not
    excluded makes [is_mignore] raise: [apply_local_changes] on a batch
    with such an event ends with a [ValueError], nothing of the batch is
    queued for upload, and [last_sync] stays as it was. *)
Theorem apply_local_changes_moved_event_raises events e p local_cursor s :
  e ∈ events →
  event_type e = EVENT_TYPE_MOVED →
  mignore_is_empty (world s) = false →
  to_dbx_path (get_dest_path e) = Some p →
  is_excluded EXCLUDED_FILE_NAMES p = false →
  is_excluded_by_user World s p = false →
  ∃ s', apply_local_changes World EXCLUDED_FILE_NAMES to_local_path
          to_dbx_path mignore_is_empty _is_mignore_path get_local_rev
          _apply_event_body events local_cursor s
        = (Aborted "ValueError", s') ∧
        last_sync s' = last_sync s ∧
        queued_for_upload s' = queued_for_upload s.
Proof.
  intros Hin Hmv Hpat Hp He1 He2.
  assert (passes_local s e = Aborted "ValueError") as Hraise.
  { unfold passes, is_mignore. rewrite Hp, He1, He2, Hpat. simpl.
    unfold has_type. by rewrite bool_decide_eq_true_2. }
  unfold apply_local_changes.
  destruct (filter_local_spec events s) as (H1 & _ & _ & _ & H5).
  assert (queued_for_upload (filter_local events s).2 = queued_for_upload s)
    as Hq.
  { clear. revert s. induction events as [|x l IH]; intros s; [done|]. simpl.
    destruct (to_dbx_path (get_dest_path x)) as [q|]; [|done].
    destruct (is_excluded EXCLUDED_FILE_NAMES q); [apply IH|].
    destruct (is_excluded_by_user World s q).
    { rewrite IH. by destruct (has_type EVENT_TYPE_DELETED x). }
    destruct (mignore (world s) x) as [[|]|exc]; [apply IH| |done].
    specialize (IH s). by destruct (filter_local l s) as [[kept|exc] s']. }
  destruct (filter_local events s) as [[kept|exc] s0]; simpl in *.
  - destruct H5 as [_ Hall]. rewrite Forall_forall in Hall.
    destruct (Hall e Hin) as [b Hb]. congruence.
  - destruct H5 as [-> _]. by exists s0.
Qed.

(** X24: [filter_excluded_changes_remote] sorts every entry into one of
    its two results, both with the cursor of the input; what it discards is
    excluded by the user and not matched by [is_excluded], so that an entry
    which [is_excluded] matches is always among the changes to apply. *)
Theorem filter_excluded_changes_remote_partition s changes :
  let '(kept, discarded) :=
    filter_excluded_changes_remote World EXCLUDED_FILE_NAMES s changes in
  cursor kept = cursor changes ∧ cursor discarded = cursor changes ∧
  (∀ e, e ∈ entries changes → e ∈ entries kept ∨ e ∈ entries discarded) ∧
  (∀ e, e ∈ entries kept → e ∈ entries changes ∧ e ∉ entries discarded) ∧
  (∀ e, e ∈ entries discarded →
        e ∈ entries changes ∧
        is_excluded_by_user World s (path_lower e) = true ∧
        is_excluded EXCLUDED_FILE_NAMES (path_lower e) = false) ∧
  (∀ e, e ∈ entries changes →
        is_excluded EXCLUDED_FILE_NAMES (path_lower e) = true →
        e ∈ entries kept).
Proof.
  unfold filter_excluded_changes_remote. simpl. repeat split.
  - intros e He.
    destruct (decide (e ∈ filter (λ e0, negb (is_excluded_by_user World s (path_lower e0))
                || is_excluded EXCLUDED_FILE_NAMES (path_lower e0) = true)
                (entries changes))) as [Hin|Hin]; [by left|right].
    apply list_elem_of_filter. split; [done|]. by apply elem_of_remove_dups.
  - by apply list_elem_of_filter in H as [_ ?].
  - intros [Hn _]%list_elem_of_filter. done.
  - apply list_elem_of_filter in H as [_ H].
    by apply (proj1 (elem_of_remove_dups _ _)) in H.
  - apply list_elem_of_filter in H as [Hn H].
    apply (proj1 (elem_of_remove_dups _ _)) in H.
    destruct (is_excluded_by_user World s (path_lower e)) eqn:E; [done|].
    destruct Hn. apply list_elem_of_filter. by rewrite E.
  - apply list_elem_of_filter in H as [Hn H].
    apply (proj1 (elem_of_remove_dups _ _)) in H.
    destruct (is_excluded EXCLUDED_FILE_NAMES (path_lower e)) eqn:E; [|done].
    destruct Hn. apply list_elem_of_filter. rewrite E. by rewrite orb_true_r.
  - intros e He Hx. apply list_elem_of_filter. rewrite Hx. by rewrite orb_true_r.
Qed.

(** X25: after [clear_sync_error] no sync error is left for the path,
    however it is cased, and the path is not among the download errors; the
    errors of other paths stay, in their order. *)
Theorem clear_sync_error_clears dbx_path (s : sync World) :
  let s' := clear_sync_error World dbx_path s in
  (∀ exc, exc ∈ sync_errors s' →
          lower <$> exc_dbx_path exc ≠ Some (lower dbx_path)) ∧
  (rstrip_sep (lower dbx_path) ∉ download_errors s') ∧
  sync_errors s' =
    filter (λ exc, lower <$> exc_dbx_path exc ≠ Some (lower dbx_path))
      (sync_errors s) ∧
  (∀ p, p ≠ rstrip_sep (lower dbx_path) →
        (p ∈ download_errors s' ↔ p ∈ download_errors s)).
Proof.
  cbv zeta. unfold clear_sync_error, download_errors_discard. simpl.
  split; [|split; [|split]].
  - intros exc [? _]%list_elem_of_filter. done.
  - intros [_ Hn]%elem_of_difference. apply Hn. by apply elem_of_singleton.
  - reflexivity.
  - intros p Hp. rewrite elem_of_difference, elem_of_singleton. split.
    + by intros [? _].
    + by intros ?.
Qed.

End batch_extras.

Lemma apply_local_changes_last_sync_witness :
  match Batch.apply_local_changes () [] (λ _ p, p) (λ _, Some "/new.txt")
          (λ _, true) (λ _ _ _, false) (λ _ _, None)
          (Scenario.failing_upload "/new.txt")
          [FileCreatedEvent "/home/u/Dropbox/new.txt"] 100 Scenario.at_cursor1 with
  | (Batch.Completed _, s') =>
      Batch.last_sync s' = 100%Q
      ∨ Batch.last_sync s' = Batch.last_sync Scenario.at_cursor1
  | (Batch.Aborted _, s') =>
      Batch.last_sync s' = Batch.last_sync Scenario.at_cursor1
  end.
Proof.
  apply (apply_local_changes_last_sync unit [] (λ _ p, p) (λ _, Some "/new.txt")
           (λ _, true) (λ _ _ _, false) (λ _ _, None)
           (Scenario.failing_upload "/new.txt")).
  intros e s. reflexivity.
Defined.

Lemma apply_local_changes_moved_event_raises_witness :
  ∃ s', Batch.apply_local_changes () [] (λ _ p, p) (λ _, Some "/b.txt")
          (λ _, false) (λ _ _ _, false) (λ _ _, None)
          (Scenario.failing_upload "/b.txt")
          [FileMovedEvent "/home/u/Dropbox/a.txt" "/home/u/Dropbox/b.txt"]
          100 Scenario.at_cursor1
        = (Batch.Aborted "ValueError", s') ∧
        Batch.last_sync s' = Batch.last_sync Scenario.at_cursor1 ∧
        Batch.queued_for_upload s'
        = Batch.queued_for_upload Scenario.at_cursor1.
Proof.
  apply (apply_local_changes_moved_event_raises unit [] (λ _ p, p)
           (λ _, Some "/b.txt") (λ _, false) (λ _ _ _, false) (λ _ _, None)
           (Scenario.failing_upload "/b.txt") _
           (FileMovedEvent "/home/u/Dropbox/a.txt" "/home/u/Dropbox/b.txt")
           "/b.txt").
  - apply list_elem_of_here.
  - reflexivity.
  - reflexivity.
  - reflexivity.
  - reflexivity.
  - reflexivity.
Defined.

(** ** More on the event handler *)

Section handler_extras.
Import Path Handler.
Context {str_lower : Lower}.

Variable IS_FS_CASE_SENSITIVE : bool.
Variable rename_on_case_conflict : list string → event → list string * event.


(** X26: [on_any_event] never touches the two flags nor the queue of
    downloads, and the queue of events is left as it was or grows by one
    event at its end; it grows only while syncing or starting up and for an
    event that is not being downloaded, and on a file system that is not
    case sensitive the event that is queued is the one that came in. *)
Theorem on_any_event_frame (h : state) (e : event) :
  let h' := on_any_event IS_FS_CASE_SENSITIVE rename_on_case_conflict h e in
  syncing h' = syncing h ∧ startup h' = startup h ∧
  queue_downloading h' = queue_downloading h ∧
  (local_file_event_queue h' = local_file_event_queue h ∨
   ∃ e', local_file_event_queue h' = local_file_event_queue h ++ [e'] ∧
         (syncing h || startup h) = true ∧
         is_being_downloaded h (src_path e) = false ∧
         (IS_FS_CASE_SENSITIVE = false →
          e' = e ∧ src_path e ∉ _renamed_items_cache h)).
Proof.
  cbv zeta. unfold on_any_event.
  destruct (syncing h || startup h) eqn:Hs; simpl; [|by auto].
  destruct (is_being_downloaded h (src_path e)) eqn:Hd; [by auto|].
  destruct IS_FS_CASE_SENSITIVE.
  - destruct (rename_on_case_conflict (_renamed_items_cache h) e)
      as [cache e'].
    destruct (bool_decide (src_path e' ∈ cache)); simpl; [by auto|].
    repeat split. right. exists e'. by repeat split.
  - destruct (bool_decide (src_path e ∈ _renamed_items_cache h)) eqn:Hc;
      simpl; [by auto|].
    repeat split. right. exists e. repeat split.
    by apply bool_decide_eq_false in Hc.
Qed.


End handler_extras.

